(** * Game of Stick rating comparison: the simulation driver and the
      standings reporters of [compare_rating_systems.py]

    The development embeds the rating engine of the script:
    - Python dictionaries ([players], every [history] entry) as
      insertion-ordered association lists (module [Dict]);
    - the competitor objects stored in [players] as a heap addressed by the
      registry key, and the library methods [beat] / [tied] as small
      programs that read and write the two objects they are called on
      ([method], [call]), so that a match of a name against itself is one
      object playing itself;
    - the two simulation loops, whose bodies are the same text in the
      source, as one loop body [loop_body] in an error monad ([result]);
    - the reporters in state-passing style over the registry.

    The competitor classes come from the [elote] package, which is not part
    of the repository.  The driver is therefore generic in a
    [CompetitorClass]; the Elo class is modelled from the written
    specification, over the real numbers. *)

From Stdlib Require Import PrimFloat.
From Stdlib Require Import List String Ascii ZArith Bool Lia.
From Stdlib Require Import Permutation Sorted.
From Stdlib Require Import Reals Lra.
Import ListNotations.

Local Open Scope string_scope.
Local Open Scope list_scope.

(* ================================================================== *)
(** ** Python dictionaries *)

(** A [dict] keeps its keys in insertion order; storing under a key that is
    already present replaces the value and leaves the key where it is. *)
Module Dict.

Definition t (V : Type) : Type := list (string * V).

Definition empty {V : Type} : t V := [].

Fixpoint get {V : Type} (k : string) (d : t V) : option V :=
  match d with
  | [] => None
  | (k', v) :: d' => if String.eqb k k' then Some v else get k d'
  end.

(** [k in d] *)
Definition mem {V : Type} (k : string) (d : t V) : bool :=
  match get k d with Some _ => true | None => false end.

(** [d[k] = v] *)
Fixpoint set {V : Type} (k : string) (v : V) (d : t V) : t V :=
  match d with
  | [] => [(k, v)]
  | (k', v') :: d' =>
      if String.eqb k k' then (k', v) :: d' else (k', v') :: set k v d'
  end.

(** Overwriting the object stored under [k]; the key set never changes. *)
Fixpoint replace {V : Type} (k : string) (v : V) (d : t V) : t V :=
  match d with
  | [] => []
  | (k', v') :: d' =>
      if String.eqb k k' then (k', v) :: d' else (k', v') :: replace k v d'
  end.

Definition keys {V : Type} (d : t V) : list string := map fst d.

(** [d.items()] *)
Definition items {V : Type} (d : t V) : list (string * V) := d.

(** A dictionary display [{k1: v1, ..., kn: vn}]: the pairs are stored
    from left to right, a repeated key keeps its last value. *)
Definition literal {V : Type} (kvs : list (string * V)) : t V :=
  fold_left (fun d kv => set (fst kv) (snd kv) d) kvs empty.

End Dict.

(* ================================================================== *)
(** ** Results of a call *)

(** [KeyError] is what a subscript [d[k]] raises on a missing key.  The other
    three are the error kinds of the specification's error-handling design;
    no statement of the script raises them. *)
Inductive exn : Type :=
| KeyError (k : string)
| InvalidOutcome
| UnsupportedAlgorithm
| InternalConvergenceError.

Inductive result (A : Type) : Type :=
| Returned (a : A)
| Raised (e : exn).
Arguments Returned {A} a.
Arguments Raised {A} e.

Definition bind {A B : Type} (r : result A) (f : A -> result B) : result B :=
  match r with
  | Returned a => f a
  | Raised e => Raised e
  end.

Notation "x <- c1 ;; c2" := (bind c1 (fun x => c2))
  (at level 61, c1 at next level, right associativity).

(** [d[k]] *)
Definition subscript {V : Type} (d : Dict.t V) (k : string) : result V :=
  match Dict.get k d with
  | Some v => Returned v
  | None => Raised (KeyError k)
  end.

(* ================================================================== *)
(** ** Competitor objects and their methods *)

(** The two objects a method [self.m(competitor)] can touch. *)
Inductive role : Type := Self | Competitor.

(** The body of a method: a sequence of reads and writes of the attributes
    of [self] and of [competitor]. *)
Inductive method (Obj : Type) : Type :=
| Return
| GetAttrs (w : role) (k : Obj -> method Obj)
| SetAttrs (w : role) (o : Obj) (k : method Obj).
Arguments Return {Obj}.
Arguments GetAttrs {Obj} w k.
Arguments SetAttrs {Obj} w o k.

(** A competitor class as the driver uses it: the [rating] attribute and the
    two methods. *)
Record CompetitorClass (Obj Rating : Type) : Type := {
  rating : Obj -> Rating;
  beat : method Obj;
  tied : method Obj
}.
Arguments rating {Obj Rating} c o.
Arguments beat {Obj Rating} c.
Arguments tied {Obj Rating} c.

(** [self.m(competitor)] on the heap of competitor objects.  Every object is
    owned by exactly one registry key, so the key is its address; when
    [self] and [competitor] are the same key the writes land on one object.
    A reference obtained from the registry always points to an object: on a
    missing address the call stops and leaves the heap as it is. *)
Fixpoint call {Obj : Type} (self competitor : string) (body : method Obj)
    (heap : Dict.t Obj) : Dict.t Obj :=
  let addr w := match w with Self => self | Competitor => competitor end in
  match body with
  | Return => heap
  | GetAttrs w k =>
      match Dict.get (addr w) heap with
      | Some o => call self competitor (k o) heap
      | None => heap
      end
  | SetAttrs w o k => call self competitor k (Dict.replace (addr w) o heap)
  end.

(* ================================================================== *)
(** ** Matches and trace entries *)

(** One element of the list built by [parse_matches]: the dictionary with
    the keys ['match'], ['player1'], ['player2'], ['winner']. *)
Record Match : Type := {
  match_ : Z;
  player1 : string;
  player2 : string;
  winner : string
}.

(** What a [history] entry can hold. *)
Inductive value (Rating : Type) : Type :=
| VInt (z : Z)
| VStr (s : string)
| VNum (r : Rating).
Arguments VInt {Rating} z.
Arguments VStr {Rating} s.
Arguments VNum {Rating} r.

Definition before_key (name : string) : string := name ++ "_before".
Definition after_key (name : string) : string := name ++ "_after".

(* ================================================================== *)
(** ** The simulation loop *)

Section Simulation.

Context {Obj Rating : Type}.

(** The class whose objects the run creates, and the object its
    constructor call returns (the constructor has no other effect). *)
Variable CompetitorClass_ : CompetitorClass Obj Rating.
Variable new_competitor : Obj.

Definition entry : Type := Dict.t (value Rating).
Definition sim_state : Type := (Dict.t Obj * list entry)%type.

(** Lines 57-60 and 104-107: [if name not in players: players[name] = ...] *)
Definition init_player (name : string) (players : Dict.t Obj) : Dict.t Obj :=
  if negb (Dict.mem name players)
  then Dict.set name new_competitor players
  else players.

(** [p.rating] read through the reference [p] that was taken from
    [players[name]]: the rating of the object now at address [name]. *)
Definition rating_at (players : Dict.t Obj) (name : string) : result Rating :=
  p <- subscript players name ;;
  Returned (rating CompetitorClass_ p).

(** Lines 70-75 and 117-122: the three-way branch on [winner]. *)
Definition process_result (winner_ p1_name p2_name : string)
    (players : Dict.t Obj) : Dict.t Obj :=
  if String.eqb winner_ "NUL" then
    call p1_name p2_name (tied CompetitorClass_) players
  else if String.eqb winner_ p1_name then
    call p1_name p2_name (beat CompetitorClass_) players
  else
    call p2_name p1_name (beat CompetitorClass_) players.

(** Lines 77-86: the dictionary appended to [history]. *)
Definition history_entry (m : Match)
    (p1_before p1_after p2_before p2_after : Rating) : entry :=
  Dict.literal
    [("match", VInt (match_ m));
     ("player1", VStr (player1 m));
     ("player2", VStr (player2 m));
     ("winner", VStr (winner m));
     (before_key (player1 m), VNum p1_before);
     (after_key (player1 m), VNum p1_after);
     (before_key (player2 m), VNum p2_before);
     (after_key (player2 m), VNum p2_after)].

(** The body of [for match in matches:]. *)
Definition loop_body (st : sim_state) (m : Match) : result sim_state :=
  let '(players, history) := st in
  let p1_name := player1 m in
  let p2_name := player2 m in
  let winner_ := winner m in
  let players := init_player p1_name players in
  let players := init_player p2_name players in
  p1 <- subscript players p1_name ;;
  p2 <- subscript players p2_name ;;
  let p1_before := rating CompetitorClass_ p1 in
  let p2_before := rating CompetitorClass_ p2 in
  let players := process_result winner_ p1_name p2_name players in
  p1_after <- rating_at players p1_name ;;
  p2_after <- rating_at players p2_name ;;
  Returned (players,
            history ++ [history_entry m p1_before p1_after p2_before p2_after]).

Fixpoint for_each (st : sim_state) (matches : list Match) : result sim_state :=
  match matches with
  | [] => Returned st
  | m :: matches' => st' <- loop_body st m ;; for_each st' matches'
  end.

(** [players = {}], [history = []], the loop, [return players, history]. *)
Definition simulate (matches : list Match) : result sim_state :=
  for_each (Dict.empty, []) matches.

(** The registry once both players of [m] exist, and once the result of
    [m] is applied. *)
Definition materialise (m : Match) (players : Dict.t Obj) : Dict.t Obj :=
  init_player (player2 m) (init_player (player1 m) players).

Definition updated (m : Match) (players : Dict.t Obj) : Dict.t Obj :=
  process_result (winner m) (player1 m) (player2 m) (materialise m players).

(** The rating of the object at [name], when there is one. *)
Definition rating_of (players : Dict.t Obj) (name : string) : option Rating :=
  option_map (rating CompetitorClass_) (Dict.get name players).

End Simulation.

(** The names of a match list in reading order, and a list of names cut
    down to the first appearance of each. *)
Definition names_of (matches : list Match) : list string :=
  flat_map (fun m => [player1 m; player2 m]) matches.

Fixpoint first_seen (l : list string) : list string :=
  match l with
  | [] => []
  | x :: l' => x :: filter (fun y => negb (String.eqb y x)) (first_seen l')
  end.

(* ================================================================== *)
(** ** The Elo competitor *)

Local Open Scope R_scope.

(** Modelled from the spec: [EloCompetitor] is a class of the [elote]
    package, which the repository imports and does not contain.  The object
    holds a rating and a K-factor; floating-point numbers are taken as real
    numbers. *)
Record EloObj : Type := {
  elo_rating : R;
  elo_k_factor : R
}.

(** Modelled from the spec: the constructor call
    [EloCompetitor(initial_rating=..., k_factor=...)] of lines 58 and 60. *)
Definition EloCompetitor_new (initial_rating k_factor : R) : EloObj :=
  {| elo_rating := initial_rating; elo_k_factor := k_factor |}.

(** Modelled from the spec: the expected score of the Elo updater,
    [Ea = 1 / (1 + 10^((Rb - Ra)/400))]. *)
Definition expected_score (Ra Rb : R) : R :=
  1 / (1 + Rpower 10 ((Rb - Ra) / 400)).

(** Modelled from the spec: the Elo update, [Ra' = Ra + K (Sa - Ea)] and the
    same for B with its own K, where [Eb = 1 - Ea]; both new ratings are
    computed from the ratings read before either is written. *)
Definition elo_update (Sa Sb : R) : method EloObj :=
  GetAttrs Self (fun a =>
  GetAttrs Competitor (fun b =>
    let Ea := expected_score (elo_rating a) (elo_rating b) in
    let Eb := 1 - Ea in
    SetAttrs Self
      {| elo_rating := elo_rating a + elo_k_factor a * (Sa - Ea);
         elo_k_factor := elo_k_factor a |}
   (SetAttrs Competitor
      {| elo_rating := elo_rating b + elo_k_factor b * (Sb - Eb);
         elo_k_factor := elo_k_factor b |}
    Return))).

(** Modelled from the spec: the class [EloCompetitor]; [self.beat(c)] scores
    1 for [self] and 0 for [c], [self.tied(c)] scores 0.5 for both. *)
Definition EloCompetitor : CompetitorClass EloObj R := {|
  rating := elo_rating;
  beat := elo_update 1 0;
  tied := elo_update (1/2) (1/2)
|}.

(** [<] on ratings. *)
Definition Rltb (x y : R) : bool := if Rlt_dec x y then true else false.

(** Lines 46-88. *)
Definition run_elo_simulation (matches : list Match) (k_factor initial_rating : R)
  : result (Dict.t EloObj * list (Dict.t (value R))) :=
  simulate EloCompetitor (EloCompetitor_new initial_rating k_factor) matches.

Local Close Scope R_scope.

(* ================================================================== *)
(** ** The Elo competitor on binary64 numbers *)

Local Set Warnings "-inexact-float".

(** Modelled from the spec: the Elo competitor with the numbers the program
    stores, IEEE 754 binary64.  Sums, differences, products and quotients
    are those of the machine; [pow10] is the power [10 ** x], which the
    platform's library computes. *)
Record EloFloatObj : Type := {
  float_rating : float;
  float_k_factor : float
}.

Definition EloFloatCompetitor_new (initial_rating k_factor : float)
  : EloFloatObj :=
  {| float_rating := initial_rating; float_k_factor := k_factor |}.

(** Modelled from the spec: [Ea = 1 / (1 + 10^((Rb - Ra)/400))]. *)
Definition expected_score_float (pow10 : float -> float) (Ra Rb : float)
  : float :=
  (1 / (1 + pow10 ((Rb - Ra) / 400)))%float.

(** Modelled from the spec: the update of [elo_update], every operation
    rounded as the machine rounds it. *)
Definition elo_update_float (pow10 : float -> float) (Sa Sb : float)
  : method EloFloatObj :=
  GetAttrs Self (fun a =>
  GetAttrs Competitor (fun b =>
    let Ea := expected_score_float pow10 (float_rating a) (float_rating b) in
    let Eb := (1 - Ea)%float in
    SetAttrs Self
      {| float_rating :=
           (float_rating a + float_k_factor a * (Sa - Ea))%float;
         float_k_factor := float_k_factor a |}
   (SetAttrs Competitor
      {| float_rating :=
           (float_rating b + float_k_factor b * (Sb - Eb))%float;
         float_k_factor := float_k_factor b |}
    Return))).

Definition EloFloatCompetitor (pow10 : float -> float)
  : CompetitorClass EloFloatObj float := {|
  rating := float_rating;
  beat := elo_update_float pow10 1%float 0%float;
  tied := elo_update_float pow10 0.5%float 0.5%float
|}.

(** Lines 46-88 on binary64 numbers. *)
Definition run_elo_simulation_float (pow10 : float -> float)
    (matches : list Match) (k_factor initial_rating : float)
  : result (Dict.t EloFloatObj * list (Dict.t (value float))) :=
  simulate (EloFloatCompetitor pow10)
    (EloFloatCompetitor_new initial_rating k_factor) matches.

(** [10 ** x] where IEEE 754 fixes it: [10 ** 0.0] is [1.0] on every
    platform.  It is the only power the first match of a run asks for, both
    players being at the initial rating; elsewhere the value is the
    platform's and is left as not-a-number. *)
Definition pow10_at_zero (x : float) : float :=
  if PrimFloat.eqb x 0%float then 1%float else nan.

(* ================================================================== *)
(** ** The Glicko simulation *)

Section Glicko.

Context {Obj Rating : Type}.

(** The classes [GlickoCompetitor] and [Glicko2Competitor] of the [elote]
    package and their constructors, called with [initial_rating] only. *)
Variables GlickoCompetitor Glicko2Competitor : CompetitorClass Obj Rating.
Variables GlickoCompetitor_new Glicko2Competitor_new : Rating -> Obj.

(** Lines 91-135; line 96 picks the class. *)
Definition run_glicko_simulation (matches : list Match)
    (initial_rating : Rating) (glicko_version : Z)
  : result (Dict.t Obj * list (Dict.t (value Rating))) :=
  let '(CompetitorClass_, new) :=
    if Z.eqb glicko_version 1
    then (GlickoCompetitor, GlickoCompetitor_new)
    else (Glicko2Competitor, Glicko2Competitor_new) in
  simulate CompetitorClass_ (new initial_rating) matches.

End Glicko.

(* ================================================================== *)
(** ** Sorting *)

(** [list.sort(key=..., reverse=True)]: the built-in sort is stable, also
    with [reverse=True], and compares keys with [<] only.  On keys that [<]
    orders as a strict weak order every stable sort gives the same list; an
    insertion sort stands for it. *)
Section Sort.

Context {A K : Type}.
Variable key : A -> K.
Variable lt : K -> K -> bool.

Fixpoint insert_reverse (x : A) (l : list A) : list A :=
  match l with
  | [] => [x]
  | y :: l' =>
      if lt (key x) (key y) then y :: insert_reverse x l' else x :: y :: l'
  end.

Fixpoint sort_reverse (l : list A) : list A :=
  match l with
  | [] => []
  | x :: l' => insert_reverse x (sort_reverse l')
  end.

End Sort.

(* ================================================================== *)
(** ** The standings reporters *)

(** A reporter receives the registry and hands back its result together with
    the registry as the call leaves it. *)
Definition State (S A : Type) : Type := S -> A * S.

Definition st_ret {S A : Type} (a : A) : State S A := fun s => (a, s).

Definition st_bind {S A B : Type} (c : State S A) (f : A -> State S B)
  : State S B :=
  fun s => let '(a, s') := c s in f a s'.

(** Reading the heap. *)
Definition st_read {S A : Type} (f : S -> A) : State S A := fun s => (f s, s).

Record Glicko2Row (Rating : Type) : Type := {
  row_name : string;
  row_rating : Rating;
  row_rd : Rating;
  row_volatility : Rating
}.
Arguments row_name {Rating} _.
Arguments row_rating {Rating} _.
Arguments row_rd {Rating} _.
Arguments row_volatility {Rating} _.

Section Reporters.

Context {Obj Rating : Type}.
(** The attributes [rating], [rd] and [volatility] of a competitor, and
    [<] on their values. *)
Variables rating_ rd_ volatility_ : Obj -> Rating.
Variable lt : Rating -> Rating -> bool.

(** The list comprehension of line 140. *)
Definition standings_of (its : list (string * Obj)) : list (string * Rating) :=
  map (fun it => (fst it, rating_ (snd it))) its.

(** Lines 138-142. *)
Definition get_final_standings : State (Dict.t Obj) (list (string * Rating)) :=
  st_bind (st_read Dict.items) (fun its =>
  let standings := standings_of its in
  st_ret (sort_reverse snd lt standings)).

(** Lines 145-156; the dictionary built on lines 149-154 has four fixed
    keys and is kept as a record. *)
Definition get_glicko2_standings_with_uncertainty
  : State (Dict.t Obj) (list (Glicko2Row Rating)) :=
  st_bind (st_read Dict.items) (fun its =>
  let standings :=
    map (fun it =>
           {| row_name := fst it;
              row_rating := rating_ (snd it);
              row_rd := rd_ (snd it);
              row_volatility := volatility_ (snd it) |}) its in
  st_ret (sort_reverse row_rating lt standings)).

End Reporters.

(* ================================================================== *)
(** ** The reporters on the store *)

(** The objects a reporter can reach: the registry with its competitors,
    and the list objects of the program, each at its address in [lists_]. *)
Record store (Obj X : Type) : Type := {
  registry_ : Dict.t Obj;
  lists_ : list (list X)
}.
Arguments registry_ {Obj X} _.
Arguments lists_ {Obj X} _.

(** Any change of the store. *)
Definition st_modify {S : Type} (f : S -> S) : State S unit :=
  fun s => (tt, f s).

Fixpoint set_list {A : Type} (a : nat) (x : A) (ls : list A) : list A :=
  match ls, a with
  | [], _ => []
  | _ :: ls', O => x :: ls'
  | y :: ls', S a' => y :: set_list a' x ls'
  end.

Section Store.

Context {Obj X : Type}.

(** What a reporter may do to the store: leave the registry and every list
    object that was there before as they are, and keep its own list object
    at the first free address. *)
Definition keeps (s s' : store Obj X) (a : nat) (l : list X) : Prop :=
  registry_ s' = registry_ s /\
  (forall i, i < List.length (lists_ s) ->
             nth_error (lists_ s') i = nth_error (lists_ s) i) /\
  a = List.length (lists_ s) /\
  nth_error (lists_ s') a = Some l.

(** A list display or comprehension: a new list object; its address is the
    value of the expression. *)
Definition new_list (l : list X) : State (store Obj X) nat :=
  fun s => (List.length (lists_ s),
            {| registry_ := registry_ s; lists_ := lists_ s ++ [l] |}).

(** A method that changes the list object at [a] in place. *)
Definition update_list (a : nat) (f : list X -> list X)
  : State (store Obj X) unit :=
  st_modify (fun s =>
    match nth_error (lists_ s) a with
    | Some l => {| registry_ := registry_ s;
                   lists_ := set_list a (f l) (lists_ s) |}
    | None => s
    end).

(** [standings.append(x)] *)
Definition list_append (a : nat) (x : X) : State (store Obj X) unit :=
  update_list a (fun l => l ++ [x]).

(** [standings.sort(key=..., reverse=True)] *)
Definition list_sort {K : Type} (key : X -> K) (lt : K -> K -> bool) (a : nat)
  : State (store Obj X) unit :=
  update_list a (sort_reverse key lt).

(** A loop whose body appends one element. *)
Fixpoint append_each (a : nat) (xs : list X) : State (store Obj X) unit :=
  match xs with
  | [] => st_ret tt
  | x :: xs' => st_bind (list_append a x) (fun _ => append_each a xs')
  end.

End Store.

Section ReportersInStore.

Context {Obj Rating : Type}.
Variables rating_ rd_ volatility_ : Obj -> Rating.
Variable lt : Rating -> Rating -> bool.

(** Lines 138-142 statement by statement: the comprehension makes the list
    object [standings], [sort] changes that object in place, and the
    function returns it. *)
Definition get_final_standings_in_store
  : State (store Obj (string * Rating)) nat :=
  st_bind (st_read (fun s => Dict.items (registry_ s))) (fun its =>
  st_bind (new_list (standings_of rating_ its)) (fun standings =>
  st_bind (list_sort snd lt standings) (fun _ =>
  st_ret standings))).

(** Lines 145-156 statement by statement: the empty list of line 147, one
    [append] for each item of the registry, the in-place sort. *)
Definition get_glicko2_standings_in_store
  : State (store Obj (Glicko2Row Rating)) nat :=
  st_bind (new_list []) (fun standings =>
  st_bind (st_read (fun s => Dict.items (registry_ s))) (fun its =>
  st_bind (append_each standings
             (map (fun it =>
                     {| row_name := fst it;
                        row_rating := rating_ (snd it);
                        row_rd := rd_ (snd it);
                        row_volatility := volatility_ (snd it) |}) its))
          (fun _ =>
  st_bind (list_sort row_rating lt standings) (fun _ =>
  st_ret standings)))).

End ReportersInStore.

(* ================================================================== *)
(** ** Vocabulary of the statements *)

(** An outcome string that names neither participant and is not the draw
    marker. *)
Definition malformed (m : Match) : Prop :=
  winner m <> player1 m /\ winner m <> player2 m /\ winner m <> "NUL".


(** [x] has a rating that [<] orders neither below nor above [r]; of
    numbers, the same rating. *)
Definition tied_with {A K : Type} (key : A -> K) (lt : K -> K -> bool)
    (r : K) (x : A) : bool :=
  negb (lt r (key x)) && negb (lt (key x) r).

(** Descending order: no element is below a later one. *)
Definition descending {A K : Type} (key : A -> K) (lt : K -> K -> bool)
    (l : list A) : Prop :=
  StronglySorted (fun x y => lt (key x) (key y) = false) l.

(** The registry keys after the names [l] have been looked up in turn,
    each unseen name being added at the end. *)
Definition add_name (acc : list string) (n : string) : list string :=
  if existsb (String.eqb n) acc then acc else acc ++ [n].

(** An Elo object with K-factor [k]. *)
Definition has_k (k : R) (o : EloObj) : Prop := elo_k_factor o = k.

(** Sample matches. *)
Definition A_beats_B : Match :=
  {| match_ := 1; player1 := "A"; player2 := "B"; winner := "A" |}.

Definition A_B_unknown_winner : Match :=
  {| match_ := 1; player1 := "A"; player2 := "B"; winner := "Zed" |}.


Definition A_plays_A : Match :=
  {| match_ := 1; player1 := "A"; player2 := "A"; winner := "A" |}.

(* ================================================================== *)
(** ** Reading the match file *)

(** [line.split(',')]: the fields between the commas; a string without a
    comma is its own single field, the empty string included. *)
Fixpoint split_comma (s : string) : list string :=
  match s with
  | "" => [""]
  | String c s' =>
      if Ascii.eqb c "," then "" :: split_comma s'
      else match split_comma s' with
           | f :: fs => String c f :: fs
           | [] => [String c ""]
           end
  end.

(** What [parse_matches] gives: the list of matches, or the [ValueError] of
    [int] on a match number it cannot read. *)
Inductive parsed (A : Type) : Type :=
| Parsed (a : A)
| ValueError (literal : string).
Arguments Parsed {A} a.
Arguments ValueError {A} literal.

Section ParseMatches.

(** The built-ins [str.strip] and [int]; [int] gives [None] where it raises
    [ValueError]. *)
Variable strip : string -> string.
Variable int : string -> option Z.

(** Lines 22-41, the body of [for line in lines[3:]:] with the list
    [matches] built so far.  The pattern with six fields or more is the test
    [len(parts) < 6] together with the subscripts 0, 1, 3 and 5. *)
Fixpoint parse_loop (matches : list Match) (lines : list string)
  : parsed (list Match) :=
  match lines with
  | [] => Parsed matches
  | line :: lines' =>
      let line := strip line in
      if String.eqb line "" then parse_loop matches lines'
      else
        match split_comma line with
        | match_num :: p1 :: _ :: p3 :: _ :: p5 :: _ =>
            let player1_ := strip p1 in
            let player2_ := strip p3 in
            let result_ := strip p5 in
            match int match_num with
            | Some n =>
                parse_loop
                  (matches ++ [{| match_ := n; player1 := player1_;
                                  player2 := player2_; winner := result_ |}])
                  lines'
            | None => ValueError match_num
            end
        | _ => parse_loop matches lines'
        end
  end.

(** Lines 14-43, from the list [lines] that [f.readlines()] returns. *)
Definition parse_matches (lines : list string) : parsed (list Match) :=
  parse_loop [] (skipn 3 lines).

(** A line the loop passes over: blank once stripped, or with fewer than six
    fields. *)
Definition skipped_line (line : string) : bool :=
  String.eqb (strip line) "" ||
  Nat.ltb (List.length (split_comma (strip line))) 6.

(** What one line contributes: nothing when it is passed over, else a match
    or the error of its match number. *)
Definition read_line (line : string) : option (parsed Match) :=
  let line := strip line in
  if String.eqb line "" then None
  else
    match split_comma line with
    | match_num :: p1 :: _ :: p3 :: _ :: p5 :: _ =>
        match int match_num with
        | Some n =>
            Some (Parsed {| match_ := n; player1 := strip p1;
                            player2 := strip p3; winner := strip p5 |})
        | None => Some (ValueError match_num)
        end
    | _ => None
    end.

(** The line [line] holds the match [m]: its fields 0, 1, 3 and 5 are the
    number, the two players and the winner of [m]. *)
Definition line_gives (line : string) (m : Match) : Prop :=
  exists f0 f1 f2 f3 f4 f5 more,
    strip line <> "" /\
    split_comma (strip line) = f0 :: f1 :: f2 :: f3 :: f4 :: f5 :: more /\
    int f0 = Some (match_ m) /\
    player1 m = strip f1 /\ player2 m = strip f3 /\ winner m = strip f5.

(** The line [line] has six fields or more and a first field [literal] that
    [int] rejects. *)
Definition line_rejected (line : string) (literal : string) : Prop :=
  exists fields,
    strip line <> "" /\
    split_comma (strip line) = literal :: fields /\
    5 <= List.length fields /\
    int literal = None.

End ParseMatches.

(** What lines 18-19 give: the lines of the file, or the error that
    [open] or the UTF-8 decoding of [readlines] raises ([OSError],
    [UnicodeDecodeError]); the [with] statement lets it through. *)
Inductive file_read : Type :=
| FileLines (lines : list string)
| FileError (error : string).

(** How a call of [parse_matches] ends. *)
Inductive parse_end : Type :=
| Matches (matches : list Match)
| IntValueError (literal : string)
| ReadingError (error : string).

(** Lines 14-43, the reading included: an error of lines 18-19 leaves the
    function before any line is looked at. *)
Definition parse_matches_of_file (strip : string -> string)
    (int : string -> option Z) (file : file_read) : parse_end :=
  match file with
  | FileError error => ReadingError error
  | FileLines lines =>
      match parse_matches strip int lines with
      | Parsed matches => Matches matches
      | ValueError literal => IntValueError literal
      end
  end.

(** An instance of the two built-ins on plain ASCII text, for statements
    that need concrete ones: blanks are the ASCII white space, a number is a
    non-empty run of decimal digits. *)
Definition is_space (c : ascii) : bool :=
  let n := nat_of_ascii c in
  (Nat.leb 9 n && Nat.leb n 13) || (Nat.leb 28 n && Nat.leb n 32).

Fixpoint lstrip (s : string) : string :=
  match s with
  | "" => ""
  | String c s' => if is_space c then lstrip s' else s
  end.

Definition reverse_string (s : string) : string :=
  string_of_list_ascii (rev (list_ascii_of_string s)).

Definition ascii_strip (s : string) : string :=
  reverse_string (lstrip (reverse_string (lstrip s))).

Fixpoint digits_value (acc : Z) (s : string) : option Z :=
  match s with
  | "" => Some acc
  | String c s' =>
      let n := nat_of_ascii c in
      if Nat.leb 48 n && Nat.leb n 57
      then digits_value (10 * acc + Z.of_nat (n - 48)) s'
      else None
  end.

Definition decimal_int (s : string) : option Z :=
  match s with
  | "" => None
  | _ => digits_value 0 s
  end.

(* ================================================================== *)
(** ** The comparison in [main] *)

(** Line 218: [next((r for n, r in standings if n == player), None)]. *)
Fixpoint next_rating {Rating : Type} (standings : list (string * Rating))
    (player : string) : option Rating :=
  match standings with
  | [] => None
  | (n, r) :: standings' =>
      if String.eqb n player then Some r else next_rating standings' player
  end.

(** A cell of the comparison table: a rating to print, or ["N/A"]. *)
Inductive cell (Rating : Type) : Type :=
| Shown (r : Rating)
| NotAvailable.
Arguments Shown {Rating} r.
Arguments NotAvailable {Rating}.

(** Line 219: [f"{rating:.1f}" if rating else "N/A"]; [truthy] is the truth
    value of a number, false of zero only.  The text of the number is left
    to the printing. *)
Definition table_cell {Rating : Type} (truthy : Rating -> bool)
    (rating_ : option Rating) : cell Rating :=
  match rating_ with
  | Some r => if truthy r then Shown r else NotAvailable
  | None => NotAvailable
  end.

(** Lines 246, 254, 258: [[name for name, _ in standings]]. *)
Definition ranking_of {Rating : Type} (standings : list (string * Rating))
  : list string :=
  map fst standings.

(** Lines 262-265: the loop over [enumerate(zip(base_ranking, ranking))],
    from index [i]; an element stands for the text
    [f"Position {i+1}: {orig} vs {new}"]. *)
Fixpoint differences_from (i : nat) (base_ranking ranking : list string)
  : list (nat * string * string) :=
  match base_ranking, ranking with
  | orig :: base', new :: ranking' =>
      if negb (String.eqb orig new)
      then (i + 1, orig, new) :: differences_from (S i) base' ranking'
      else differences_from (S i) base' ranking'
  | _, _ => []
  end.

Definition differences (base_ranking ranking : list string)
  : list (nat * string * string) :=
  differences_from 0 base_ranking ranking.

(** Two registries that hold the same object under every name; the order of
    their keys may differ. *)
Definition same_objects {Obj : Type} (d d' : Dict.t Obj) : Prop :=
  forall n, Dict.get n d = Dict.get n d'.

Definition B_beats_C : Match :=
  {| match_ := 2; player1 := "B"; player2 := "C"; winner := "B" |}.

(** The match with its two player columns exchanged. *)
Definition swap_players (m : Match) : Match :=
  {| match_ := match_ m; player1 := player2 m; player2 := player1 m;
     winner := winner m |}.

(* ================================================================== *)
(** * Properties *)

(** ** Dictionaries *)

Section DictFacts.

Context {V : Type}.
Implicit Types (d : Dict.t V) (k : string) (v : V).

Lemma get_set_same k v d : Dict.get k (Dict.set k v d) = Some v.
Proof.
  induction d as [|[k' v'] d IH]; simpl.
  - now rewrite String.eqb_refl.
  - destruct (String.eqb k k') eqn:E; simpl; rewrite E; auto.
Qed.

Lemma get_set_other k k' v d :
  k <> k' -> Dict.get k (Dict.set k' v d) = Dict.get k d.
Proof.
  intros Hne. apply String.eqb_neq in Hne.
  induction d as [|[k2 v2] d IH]; simpl.
  - now rewrite Hne.
  - destruct (String.eqb k' k2) eqn:E; simpl.
    + apply String.eqb_eq in E. subst k2. now rewrite Hne.
    + now rewrite IH.
Qed.

Lemma keys_replace k v d : Dict.keys (Dict.replace k v d) = Dict.keys d.
Proof.
  induction d as [|[k' v'] d IH]; simpl; auto.
  destruct (String.eqb k k'); simpl; auto.
  f_equal. exact IH.
Qed.

Lemma get_replace_same k v d :
  Dict.mem k d = true -> Dict.get k (Dict.replace k v d) = Some v.
Proof.
  unfold Dict.mem.
  induction d as [|[k' v'] d IH]; simpl; [discriminate|].
  destruct (String.eqb k k') eqn:E; simpl; rewrite E; auto.
Qed.

Lemma get_replace_other k k' v d :
  k <> k' -> Dict.get k (Dict.replace k' v d) = Dict.get k d.
Proof.
  intros Hne. apply String.eqb_neq in Hne.
  induction d as [|[k2 v2] d IH]; simpl; auto.
  destruct (String.eqb k' k2) eqn:E; simpl.
  - apply String.eqb_eq in E. subst k2. now rewrite Hne.
  - now rewrite IH.
Qed.

Lemma mem_keys k d : Dict.mem k d = true <-> In k (Dict.keys d).
Proof.
  unfold Dict.mem.
  induction d as [|[k' v'] d IH]; simpl.
  - split; [discriminate | tauto].
  - destruct (String.eqb_spec k k') as [->|Hne].
    + split; auto.
    + rewrite IH. split; [tauto | intros [H|H]; congruence].
Qed.

Lemma mem_false_keys k d : Dict.mem k d = false <-> ~ In k (Dict.keys d).
Proof.
  rewrite <- mem_keys. destruct (Dict.mem k d); split; congruence.
Qed.

Lemma keys_set k v d :
  Dict.keys (Dict.set k v d) =
  if Dict.mem k d then Dict.keys d else Dict.keys d ++ [k].
Proof.
  unfold Dict.mem.
  induction d as [|[k' v'] d IH]; simpl; auto.
  destruct (String.eqb k k') eqn:E; simpl; auto.
  rewrite IH. now destruct (Dict.get k d).
Qed.

(** A display read back: the last pair stored under the key counts. *)
Lemma get_fold_set k (kvs : list (string * V)) d :
  Dict.get k (fold_left (fun d kv => Dict.set (fst kv) (snd kv) d) kvs d) =
  match Dict.get k (rev kvs) with
  | Some v => Some v
  | None => Dict.get k d
  end.
Proof.
  revert d. induction kvs as [|[k' v'] kvs IH]; intros d; simpl; auto.
  rewrite IH. clear IH.
  assert (Hrev : forall l : Dict.t V,
             Dict.get k (l ++ [(k', v')]) =
             match Dict.get k l with
             | Some x => Some x
             | None => if String.eqb k k' then Some v' else None
             end).
  { induction l as [|[k2 v2] l IHl]; simpl; auto.
    destruct (String.eqb k k2); auto. }
  rewrite Hrev.
  destruct (Dict.get k (rev kvs)); auto.
  destruct (String.eqb_spec k k') as [->|Hne].
  - apply get_set_same.
  - now apply get_set_other.
Qed.

Lemma get_literal k (kvs : list (string * V)) :
  Dict.get k (Dict.literal kvs) = Dict.get k (rev kvs).
Proof.
  unfold Dict.literal. rewrite get_fold_set.
  now destruct (Dict.get k (rev kvs)).
Qed.

End DictFacts.

(** ** The keys of a trace entry *)

Lemma list_ascii_of_string_append (a b : string) :
  list_ascii_of_string (a ++ b) = list_ascii_of_string a ++ list_ascii_of_string b.
Proof.
  induction a as [|c a IH]; simpl; auto. now rewrite IH.
Qed.

(** The characters of [name ++ suffix] read from the end. *)
Lemma rev_chars_append (a b : string) :
  rev (list_ascii_of_string (a ++ b)) =
  rev (list_ascii_of_string b) ++ rev (list_ascii_of_string a).
Proof.
  now rewrite list_ascii_of_string_append, rev_app_distr.
Qed.

Lemma append_inj_l (a b s : string) : (a ++ s = b ++ s)%string -> a = b.
Proof.
  intros H.
  apply (f_equal (fun x => rev (list_ascii_of_string x))) in H.
  rewrite !rev_chars_append in H.
  apply app_inv_head in H.
  apply (f_equal (@rev ascii)) in H. rewrite !rev_involutive in H.
  apply (f_equal string_of_list_ascii) in H.
  now rewrite !string_of_list_ascii_of_string in H.
Qed.

Ltac key_clash H :=
  apply (f_equal (fun x => rev (list_ascii_of_string x))) in H;
  unfold before_key, after_key in H;
  rewrite ?rev_chars_append in H; simpl in H; discriminate H.

Lemma before_key_inj a b : before_key a = before_key b -> a = b.
Proof. apply append_inj_l. Qed.

Lemma after_key_inj a b : after_key a = after_key b -> a = b.
Proof. apply append_inj_l. Qed.

Lemma before_after_key a b : before_key a <> after_key b.
Proof. intros H. key_clash H. Qed.

Lemma before_key_fixed a :
  before_key a <> "match" /\ before_key a <> "player1" /\
  before_key a <> "player2" /\ before_key a <> "winner".
Proof. repeat split; intros H; key_clash H. Qed.

Lemma after_key_fixed a :
  after_key a <> "match" /\ after_key a <> "player1" /\
  after_key a <> "player2" /\ after_key a <> "winner".
Proof. repeat split; intros H; key_clash H. Qed.

(** ** Method calls and the loop body *)

Lemma mem_same_keys {V W : Type} (k : string) (d : Dict.t V) (d' : Dict.t W) :
  Dict.keys d = Dict.keys d' -> Dict.mem k d = Dict.mem k d'.
Proof.
  intros Hk.
  destruct (Dict.mem k d') eqn:E.
  - apply mem_keys. rewrite Hk. now apply mem_keys.
  - apply mem_false_keys. rewrite Hk. now apply mem_false_keys.
Qed.

Lemma call_keys {Obj : Type} (self competitor : string) (body : method Obj) :
  forall heap, Dict.keys (call self competitor body heap) = Dict.keys heap.
Proof.
  induction body as [|w k IH|w o k IH]; intros heap; simpl; auto.
  - destruct (Dict.get _ heap); auto.
  - rewrite IH. apply keys_replace.
Qed.

Section SimulationFacts.

Context {Obj Rating : Type}.
Variable C : CompetitorClass Obj Rating.
Variable new : Obj.

Lemma init_player_keys name players :
  Dict.keys (init_player new name players) =
  if Dict.mem name players then Dict.keys players
  else Dict.keys players ++ [name].
Proof.
  unfold init_player.
  destruct (Dict.mem name players) eqn:E; simpl; auto.
  rewrite keys_set. now rewrite E.
Qed.

Lemma init_player_mem name players :
  Dict.mem name (init_player new name players) = true.
Proof.
  apply mem_keys. rewrite init_player_keys.
  destruct (Dict.mem name players) eqn:E.
  - now apply mem_keys.
  - apply in_or_app. right. now left.
Qed.

Lemma init_player_mem_mono k name players :
  Dict.mem k players = true -> Dict.mem k (init_player new name players) = true.
Proof.
  intros H. apply mem_keys. rewrite init_player_keys.
  apply mem_keys in H.
  destruct (Dict.mem name players); auto.
  apply in_or_app. now left.
Qed.

Lemma process_result_keys w p1 p2 players :
  Dict.keys (process_result C w p1 p2 players) = Dict.keys players.
Proof.
  unfold process_result.
  destruct (String.eqb w "NUL"); [|destruct (String.eqb w p1)];
    apply call_keys.
Qed.

Lemma materialise_mem m players :
  Dict.mem (player1 m) (materialise new m players) = true /\
  Dict.mem (player2 m) (materialise new m players) = true.
Proof.
  unfold materialise. split.
  - apply init_player_mem_mono, init_player_mem.
  - apply init_player_mem.
Qed.

Lemma updated_mem m players :
  Dict.mem (player1 m) (updated C new m players) = true /\
  Dict.mem (player2 m) (updated C new m players) = true.
Proof.
  unfold updated.
  rewrite !(mem_same_keys _ _ _ (process_result_keys _ _ _ _)).
  apply materialise_mem.
Qed.

Lemma mem_get {V : Type} k (d : Dict.t V) :
  Dict.mem k d = true -> exists v, Dict.get k d = Some v.
Proof.
  unfold Dict.mem. destruct (Dict.get k d) as [v|]; [eauto | discriminate].
Qed.

Lemma rating_at_get players name o :
  Dict.get name players = Some o ->
  rating_at C players name = Returned (rating C o).
Proof.
  intros H. unfold rating_at, subscript. now rewrite H.
Qed.

(** The loop body never raises: both subscripts find the objects that the
    two [if ... not in players] statements have just made sure of. *)
Lemma loop_body_returns players history m :
  exists o1 o2 o1' o2',
    Dict.get (player1 m) (materialise new m players) = Some o1 /\
    Dict.get (player2 m) (materialise new m players) = Some o2 /\
    Dict.get (player1 m) (updated C new m players) = Some o1' /\
    Dict.get (player2 m) (updated C new m players) = Some o2' /\
    loop_body C new (players, history) m =
    Returned (updated C new m players,
              history ++ [history_entry m (rating C o1) (rating C o1')
                                          (rating C o2) (rating C o2')]).
Proof.
  destruct (materialise_mem m players) as [H1 H2].
  destruct (updated_mem m players) as [H1' H2'].
  apply mem_get in H1, H2, H1', H2'.
  destruct H1 as [o1 H1], H2 as [o2 H2], H1' as [o1' H1'], H2' as [o2' H2'].
  exists o1, o2, o1', o2'. repeat split; auto.
  unfold updated, materialise in *. unfold loop_body.
  unfold subscript. rewrite H1, H2. cbn [bind].
  rewrite (rating_at_get _ _ _ H1'), (rating_at_get _ _ _ H2'). reflexivity.
Qed.

Lemma for_each_app st ms1 ms2 :
  for_each C new st (ms1 ++ ms2) =
  (st' <- for_each C new st ms1 ;; for_each C new st' ms2).
Proof.
  revert st. induction ms1 as [|m ms1 IH]; intros st; cbn [for_each app bind]; auto.
  destruct (loop_body C new st m) as [st'|e]; cbn [bind]; auto.
Qed.

(** A run always returns, with one entry more per match. *)
Lemma for_each_returns ms :
  forall players history,
  exists players' trace,
    for_each C new (players, history) ms = Returned (players', history ++ trace) /\
    List.length trace = List.length ms.
Proof.
  induction ms as [|m ms IH]; intros players history; cbn [for_each].
  - exists players, []. now rewrite app_nil_r.
  - destruct (loop_body_returns players history m)
      as (o1 & o2 & o1' & o2' & _ & _ & _ & _ & ->). cbn [bind].
    destruct (IH (updated C new m players)
                 (history ++ [history_entry m (rating C o1) (rating C o1')
                                (rating C o2) (rating C o2')]))
      as (players' & trace & -> & Hlen).
    eexists players', (_ :: trace). rewrite <- app_assoc. simpl.
    split; [reflexivity | now rewrite Hlen].
Qed.

End SimulationFacts.

(** ** The Elo update on concrete ratings *)

Local Open Scope R_scope.

Ltac elo_eval := cbv -[Rplus Rminus Rmult Rdiv Rinv Rpower IZR Ropp].

Lemma expected_score_equal_ratings (r : R) : expected_score r r = 1 / 2.
Proof.
  unfold expected_score.
  replace ((r - r) / 400) with 0 by lra.
  rewrite Rpower_O by lra. lra.
Qed.

Lemma pow10_equal_ratings : Rpower 10 ((1200 - 1200) / 400) = 1.
Proof.
  replace ((1200 - 1200) / 400) with 0 by lra.
  apply Rpower_O. lra.
Qed.

(** ** Outcome resolution *)

Section Resolution.

Context {Obj Rating : Type}.
Variable C : CompetitorClass Obj Rating.
Variable new : Obj.

Lemma simulate_returns ms : exists r, simulate C new ms = Returned r.
Proof.
  unfold simulate.
  destruct (for_each_returns C new ms Dict.empty [])
    as (players' & trace & H & _).
  eauto.
Qed.

Lemma loop_body_updated players history m :
  exists e,
    loop_body C new (players, history) m =
    Returned (updated C new m players, (history ++ [e])%list).
Proof.
  destruct (loop_body_returns C new players history m)
    as (o1 & o2 & o1' & o2' & _ & _ & _ & _ & H).
  eauto.
Qed.

End Resolution.

(** C1, as the code has it.  A match whose outcome string is neither the
    draw marker nor player1's name (a malformed outcome among them) is
    resolved as a win of player2: the branch of lines 70-75 and 117-122
    calls [p2.beat(p1)], and the registry an iteration of the loop hands on
    is the one that call leaves.  The loop body does not report
    [InvalidOutcome] for it. *)
Theorem unmatched_outcome_credits_player2
    {Obj Rating : Type} (C : CompetitorClass Obj Rating) (new : Obj)
    (players : Dict.t Obj) (history : list (Dict.t (value Rating))) (m : Match) :
  winner m <> "NUL"%string -> winner m <> player1 m ->
  process_result C (winner m) (player1 m) (player2 m) players =
    call (player2 m) (player1 m) (beat C) players /\
  updated C new m players =
    call (player2 m) (player1 m) (beat C) (materialise new m players) /\
  loop_body C new (players, history) m <> Raised InvalidOutcome /\
  (forall players' history',
     loop_body C new (players, history) m = Returned (players', history') ->
     players' =
     call (player2 m) (player1 m) (beat C) (materialise new m players)).
Proof.
  intros Hnul Hp1.
  apply String.eqb_neq in Hnul, Hp1.
  assert (Hres : forall d,
            process_result C (winner m) (player1 m) (player2 m) d =
            call (player2 m) (player1 m) (beat C) d).
  { intros d. unfold process_result. now rewrite Hnul, Hp1. }
  destruct (loop_body_updated C new players history m) as [e He].
  split; [apply Hres|]. split; [apply Hres|]. split.
  - intros Hr. pose proof (eq_trans (eq_sym Hr) He) as H. discriminate H.
  - intros players' history' Hr.
    pose proof (eq_trans (eq_sym Hr) He) as H.
    injection H as Hp _. rewrite Hp. apply Hres.
Qed.

Lemma unmatched_outcome_credits_player2_witness :
  process_result EloCompetitor (winner A_B_unknown_winner)
    (player1 A_B_unknown_winner) (player2 A_B_unknown_winner) Dict.empty =
    call "B" "A" (beat EloCompetitor) Dict.empty /\
  updated EloCompetitor (EloCompetitor_new 1200 40) A_B_unknown_winner
    Dict.empty =
    call "B" "A" (beat EloCompetitor)
      (materialise (EloCompetitor_new 1200 40) A_B_unknown_winner Dict.empty) /\
  loop_body EloCompetitor (EloCompetitor_new 1200 40) (Dict.empty, [])
    A_B_unknown_winner <> Raised InvalidOutcome /\
  (forall players' history',
     loop_body EloCompetitor (EloCompetitor_new 1200 40) (Dict.empty, [])
       A_B_unknown_winner = Returned (players', history') ->
     players' =
     call "B" "A" (beat EloCompetitor)
       (materialise (EloCompetitor_new 1200 40) A_B_unknown_winner Dict.empty)).
Proof.
  apply (unmatched_outcome_credits_player2 EloCompetitor
           (EloCompetitor_new 1200 40) Dict.empty [] A_B_unknown_winner);
    simpl; discriminate.
Defined.

(** C1 fails: on the match A against B with outcome string "Zed" the Elo run
    returns, with the win credited to B. *)
Lemma malformed_outcome_not_reported :
  malformed A_B_unknown_winner /\
  run_elo_simulation [A_B_unknown_winner] 40 1200 <> Raised InvalidOutcome /\
  exists players history,
    run_elo_simulation [A_B_unknown_winner] 40 1200 = Returned (players, history) /\
    rating_of EloCompetitor players "A" = Some 1180 /\
    rating_of EloCompetitor players "B" = Some 1220.
Proof.
  split; [|split].
  - unfold malformed. simpl. repeat split; discriminate.
  - elo_eval. discriminate.
  - eexists _, _. split; [elo_eval; reflexivity|].
    elo_eval. rewrite pow10_equal_ratings. split; f_equal; lra.
Qed.

(** ** Algorithm selection *)

(** C2, as the code has it.  Line 96 tests [glicko_version == 1] and nothing
    else: every other value, supported or not, selects [Glicko2Competitor],
    and the run returns what the Glicko-2 run returns. *)
Theorem other_version_selects_glicko2
    {Obj Rating : Type} (G1 G2 : CompetitorClass Obj Rating)
    (new1 new2 : Rating -> Obj)
    (ms : list Match) (init : Rating) (v : Z) :
  v <> 1%Z ->
  run_glicko_simulation G1 G2 new1 new2 ms init v =
  run_glicko_simulation G1 G2 new1 new2 ms init 2 /\
  run_glicko_simulation G1 G2 new1 new2 ms init v = simulate G2 (new2 init) ms /\
  exists r, run_glicko_simulation G1 G2 new1 new2 ms init v = Returned r.
Proof.
  intros Hv. apply Z.eqb_neq in Hv.
  unfold run_glicko_simulation. rewrite Hv. simpl.
  repeat split; auto. apply simulate_returns.
Qed.

Lemma other_version_selects_glicko2_witness :
  run_glicko_simulation EloCompetitor EloCompetitor
    (fun r => EloCompetitor_new r 20) (fun r => EloCompetitor_new r 60)
    [A_beats_B] 1200 3 =
  run_glicko_simulation EloCompetitor EloCompetitor
    (fun r => EloCompetitor_new r 20) (fun r => EloCompetitor_new r 60)
    [A_beats_B] 1200 2 /\
  run_glicko_simulation EloCompetitor EloCompetitor
    (fun r => EloCompetitor_new r 20) (fun r => EloCompetitor_new r 60)
    [A_beats_B] 1200 3 =
  simulate EloCompetitor (EloCompetitor_new 1200 60) [A_beats_B] /\
  exists r,
    run_glicko_simulation EloCompetitor EloCompetitor
      (fun r => EloCompetitor_new r 20) (fun r => EloCompetitor_new r 60)
      [A_beats_B] 1200 3 = Returned r.
Proof.
  apply (other_version_selects_glicko2 EloCompetitor EloCompetitor
           (fun r => EloCompetitor_new r 20) (fun r => EloCompetitor_new r 60)
           [A_beats_B] 1200 3).
  lia.
Defined.

(** C2 fails: with [glicko_version = 3] the run reports nothing, on the
    empty match list as on a match list; it returns what version 2 returns.
    The two library classes are arguments of the simulation; an Elo class
    with K = 20 stands for the first and one with K = 60 for the second. *)
Lemma unsupported_version_not_reported :
  run_glicko_simulation EloCompetitor EloCompetitor
    (fun r => EloCompetitor_new r 20) (fun r => EloCompetitor_new r 60)
    [] 1200 3 = Returned (Dict.empty, []) /\
  run_glicko_simulation EloCompetitor EloCompetitor
    (fun r => EloCompetitor_new r 20) (fun r => EloCompetitor_new r 60)
    [A_beats_B] 1200 3 <> Raised UnsupportedAlgorithm /\
  run_glicko_simulation EloCompetitor EloCompetitor
    (fun r => EloCompetitor_new r 20) (fun r => EloCompetitor_new r 60)
    [A_beats_B] 1200 3 =
  run_glicko_simulation EloCompetitor EloCompetitor
    (fun r => EloCompetitor_new r 20) (fun r => EloCompetitor_new r 60)
    [A_beats_B] 1200 2.
Proof.
  split; [|split].
  - reflexivity.
  - elo_eval. discriminate.
  - reflexivity.
Qed.

(** ** The draw marker as a player name *)




(** ** The Elo scenario *)

(** C4.  Elo with K = 40 and initial rating 1200 on the single match "A
    beats B": the expected score of A is 0.5, and the run returns A at 1220
    and B at 1180, with the trace entry recording 1200 before and the new
    ratings after. *)
Theorem elo_scenario_A_beats_B :
  expected_score 1200 1200 = 1 / 2 /\
  run_elo_simulation [A_beats_B] 40 1200 =
  Returned
    ([("A"%string, {| elo_rating := 1220; elo_k_factor := 40 |});
      ("B"%string, {| elo_rating := 1180; elo_k_factor := 40 |})],
     [[("match"%string, VInt 1%Z); ("player1"%string, VStr "A");
       ("player2"%string, VStr "B"); ("winner"%string, VStr "A");
       ("A_before"%string, VNum 1200); ("A_after"%string, VNum 1220);
       ("B_before"%string, VNum 1200); ("B_after"%string, VNum 1180)]]).
Proof.
  split.
  - apply expected_score_equal_ratings.
  - elo_eval. rewrite pow10_equal_ratings.
    replace (1200 + 40 * (1 - 1 / (1 + 1))) with 1220 by lra.
    replace (1200 + 40 * (0 - (1 - 1 / (1 + 1)))) with 1180 by lra.
    reflexivity.
Qed.

Local Close Scope R_scope.

(** ** Reading a trace entry *)

Ltac absurd_key :=
  match goal with
  | H : before_key _ = after_key _ |- _ => destruct (before_after_key _ _ H)
  | H : after_key _ = before_key _ |- _ =>
      symmetry in H; destruct (before_after_key _ _ H)
  | H : before_key ?a = _ |- _ =>
      destruct (before_key_fixed a) as (? & ? & ? & ?); congruence
  | H : _ = before_key ?a |- _ =>
      destruct (before_key_fixed a) as (? & ? & ? & ?); congruence
  | H : after_key ?a = _ |- _ =>
      destruct (after_key_fixed a) as (? & ? & ? & ?); congruence
  | H : _ = after_key ?a |- _ =>
      destruct (after_key_fixed a) as (? & ? & ? & ?); congruence
  end.

Ltac key_cases :=
  repeat match goal with
    | |- context [String.eqb ?a ?b] =>
        destruct (String.eqb_spec a b);
        repeat match goal with
          | H : before_key _ = before_key _ |- _ => apply before_key_inj in H
          | H : after_key _ = after_key _ |- _ => apply after_key_inj in H
          end;
        try discriminate; try (exfalso; congruence); try absurd_key
    end.

Ltac store_keys :=
  key_cases; repeat (progress (cbn [Dict.set]); key_cases).

Section EntryFacts.

Context {Rating : Type}.
Variable m : Match.
Variables b1 a1 b2 a2 : Rating.

Let e := history_entry m b1 a1 b2 a2.

Lemma entry_fixed_fields :
  Dict.get "match" e = Some (VInt (match_ m)) /\
  Dict.get "player1" e = Some (VStr (player1 m)) /\
  Dict.get "player2" e = Some (VStr (player2 m)) /\
  Dict.get "winner" e = Some (VStr (winner m)).
Proof.
  unfold e, history_entry. rewrite !get_literal.
  cbn [rev app Dict.get].
  repeat split; key_cases; reflexivity.
Qed.

Lemma entry_player2_fields :
  Dict.get (before_key (player2 m)) e = Some (VNum b2) /\
  Dict.get (after_key (player2 m)) e = Some (VNum a2).
Proof.
  unfold e, history_entry. rewrite !get_literal.
  cbn [rev app Dict.get].
  split; key_cases; reflexivity.
Qed.

Lemma entry_player1_fields :
  player1 m <> player2 m ->
  Dict.get (before_key (player1 m)) e = Some (VNum b1) /\
  Dict.get (after_key (player1 m)) e = Some (VNum a1).
Proof.
  intros Hne. unfold e, history_entry. rewrite !get_literal.
  cbn [rev app Dict.get].
  split; key_cases; reflexivity.
Qed.

(** The keys of an entry: eight for two names, six when both roles carry
    the same name. *)
Lemma entry_keys_distinct :
  player1 m <> player2 m ->
  Dict.keys e =
  ["match"; "player1"; "player2"; "winner";
   before_key (player1 m); after_key (player1 m);
   before_key (player2 m); after_key (player2 m)].
Proof.
  intros Hne. unfold e, history_entry, Dict.literal.
  cbn [fold_left Dict.set fst snd Dict.empty].
  store_keys. reflexivity.
Qed.

Lemma entry_same_name :
  player1 m = player2 m ->
  e = [("match", VInt (match_ m)); ("player1", VStr (player1 m));
       ("player2", VStr (player2 m)); ("winner", VStr (winner m));
       (before_key (player1 m), VNum b2); (after_key (player1 m), VNum a2)].
Proof.
  intros Heq. unfold e, history_entry, Dict.literal. rewrite <- Heq.
  cbn [fold_left Dict.set fst snd Dict.empty].
  store_keys. reflexivity.
Qed.

End EntryFacts.

(** ** The trace of a run *)

Section TraceFacts.

Context {Obj Rating : Type}.
Variable C : CompetitorClass Obj Rating.
Variable new : Obj.

(** A run seen at one of its matches: the run of the matches before it,
    the loop body on that match, the rest. *)
Lemma simulate_split pre m post :
  exists reg0 h0 o1 o2 o1' o2' players trace,
    simulate C new pre = Returned (reg0, h0) /\
    List.length h0 = List.length pre /\
    Dict.get (player1 m) (materialise new m reg0) = Some o1 /\
    Dict.get (player2 m) (materialise new m reg0) = Some o2 /\
    Dict.get (player1 m) (updated C new m reg0) = Some o1' /\
    Dict.get (player2 m) (updated C new m reg0) = Some o2' /\
    simulate C new (pre ++ [m]) =
    Returned (updated C new m reg0,
              (h0 ++ [history_entry m (rating C o1) (rating C o1')
                        (rating C o2) (rating C o2')])%list) /\
    simulate C new (pre ++ m :: post) =
    Returned (players,
              (h0 ++ history_entry m (rating C o1) (rating C o1')
                       (rating C o2) (rating C o2') :: trace)%list) /\
    List.length trace = List.length post.
Proof.
  destruct (for_each_returns C new pre Dict.empty [])
    as (reg0 & h0 & Hpre & Hlen0).
  cbn [app] in Hpre.
  destruct (loop_body_returns C new reg0 h0 m)
    as (o1 & o2 & o1' & o2' & G1 & G2 & G1' & G2' & Hbody).
  destruct (for_each_returns C new post (updated C new m reg0)
              (h0 ++ [history_entry m (rating C o1) (rating C o1')
                        (rating C o2) (rating C o2')])%list)
    as (players & trace & Hpost & Hlen).
  exists reg0, h0, o1, o2, o1', o2', players, trace.
  unfold simulate.
  repeat split; auto.
  - rewrite for_each_app, Hpre. cbn [bind for_each].
    etransitivity; [apply f_equal2; [exact Hbody | reflexivity]|].
    reflexivity.
  - rewrite for_each_app, Hpre. cbn [bind for_each].
    etransitivity; [apply f_equal2; [exact Hbody | reflexivity]|].
    cbn [bind]. rewrite Hpost. now rewrite <- app_assoc.
Qed.

Lemma nth_error_middle {A : Type} (l1 l2 : list A) (x : A) n :
  List.length l1 = n -> nth_error (l1 ++ x :: l2) n = Some x.
Proof.
  intros <-. rewrite nth_error_app2 by lia.
  now rewrite Nat.sub_diag.
Qed.

End TraceFacts.

(** C8.  Every match of the list gets exactly one trace entry, at its own
    position: the run of the list up to and including the match is the run
    of the matches before it with one entry appended, the whole trace is as
    long as the match list, and the entry at the position of the match is
    that entry.  It records the match, and for each player the rating read
    in the registry before the result is applied (both players being
    present, nothing updated yet) and the rating read after. *)
Theorem trace_entry_per_match
    {Obj Rating : Type} (C : CompetitorClass Obj Rating) (new : Obj)
    (pre : list Match) (m : Match) (post : list Match) :
  exists reg0 h0 players history e b1 b2 a1 a2,
    simulate C new pre = Returned (reg0, h0) /\
    simulate C new (pre ++ [m]) =
      Returned (updated C new m reg0, (h0 ++ [e])%list) /\
    simulate C new (pre ++ m :: post) = Returned (players, history) /\
    List.length history = List.length (pre ++ m :: post) /\
    nth_error history (List.length pre) = Some e /\
    Dict.get "match" e = Some (VInt (match_ m)) /\
    Dict.get "player1" e = Some (VStr (player1 m)) /\
    Dict.get "player2" e = Some (VStr (player2 m)) /\
    Dict.get "winner" e = Some (VStr (winner m)) /\
    rating_of C (materialise new m reg0) (player1 m) = Some b1 /\
    rating_of C (materialise new m reg0) (player2 m) = Some b2 /\
    rating_of C (updated C new m reg0) (player1 m) = Some a1 /\
    rating_of C (updated C new m reg0) (player2 m) = Some a2 /\
    Dict.get (before_key (player1 m)) e = Some (VNum b1) /\
    Dict.get (before_key (player2 m)) e = Some (VNum b2) /\
    Dict.get (after_key (player1 m)) e = Some (VNum a1) /\
    Dict.get (after_key (player2 m)) e = Some (VNum a2).
Proof.
  destruct (simulate_split C new pre m post)
    as (reg0 & h0 & o1 & o2 & o1' & o2' & players & trace &
        Hpre & Hlen0 & G1 & G2 & G1' & G2' & Hstep & Hall & Hlen).
  exists reg0, h0, players,
    (h0 ++ history_entry m (rating C o1) (rating C o1')
             (rating C o2) (rating C o2') :: trace)%list,
    (history_entry m (rating C o1) (rating C o1') (rating C o2) (rating C o2')),
    (rating C o1), (rating C o2), (rating C o1'), (rating C o2').
  split; [exact Hpre|]. split; [exact Hstep|]. split; [exact Hall|].
  split.
  { rewrite !length_app. cbn [List.length]. lia. }
  split; [now apply nth_error_middle|].
  destruct (entry_fixed_fields m (rating C o1) (rating C o1')
              (rating C o2) (rating C o2')) as (F1 & F2 & F3 & F4).
  destruct (entry_player2_fields m (rating C o1) (rating C o1')
              (rating C o2) (rating C o2')) as (B2 & A2).
  do 4 (split; [assumption|]).
  unfold rating_of. rewrite G1, G2, G1', G2'. cbn [option_map].
  do 4 (split; [reflexivity|]).
  destruct (string_dec (player1 m) (player2 m)) as [Heq|Hne].
  - rewrite Heq in G1, G1'.
    assert (o1 = o2) by congruence. assert (o1' = o2') by congruence.
    subst o2 o2'. rewrite Heq. auto.
  - destruct (entry_player1_fields m (rating C o1) (rating C o1')
                (rating C o2) (rating C o2') Hne) as (B1 & A1).
    auto.
Qed.

(** ** Invariants of the registry *)

Section RegistryInvariants.

Context {Obj Rating : Type}.
Variable C : CompetitorClass Obj Rating.
Variable new : Obj.

Lemma for_each_invariant (P : Dict.t Obj -> Prop) :
  (forall m d, P d -> P (updated C new m d)) ->
  forall ms players history players' history',
    P players ->
    for_each C new (players, history) ms = Returned (players', history') ->
    P players'.
Proof.
  intros Hstep. induction ms as [|m ms IH];
    intros players history players' history' HP Hrun; cbn [for_each] in Hrun.
  - now inversion Hrun; subst.
  - destruct (loop_body_updated C new players history m) as [e He].
    assert (Hrun' : for_each C new (updated C new m players,
                                    (history ++ [e])%list) ms =
                    Returned (players', history')).
    { rewrite <- Hrun. symmetry.
      etransitivity; [apply f_equal2; [exact He | reflexivity]|].
      reflexivity. }
    eapply IH; [|exact Hrun']. now apply Hstep.
Qed.

Lemma get_Forall (Q : Obj -> Prop) (d : Dict.t Obj) name o :
  Forall (fun kv => Q (snd kv)) d -> Dict.get name d = Some o -> Q o.
Proof.
  induction 1 as [|[k v] d Hv _ IH]; simpl; [discriminate|].
  destruct (String.eqb name k); auto.
  now intros [= <-].
Qed.

Lemma Forall_replace (Q : Obj -> Prop) (d : Dict.t Obj) name o :
  Q o -> Forall (fun kv => Q (snd kv)) d ->
  Forall (fun kv => Q (snd kv)) (Dict.replace name o d).
Proof.
  intros Ho. induction 1 as [|[k v] d Hv Hd IH]; simpl; auto.
  destruct (String.eqb name k); constructor; auto.
Qed.

Lemma Forall_set (Q : Obj -> Prop) (d : Dict.t Obj) name o :
  Q o -> Forall (fun kv => Q (snd kv)) d ->
  Forall (fun kv => Q (snd kv)) (Dict.set name o d).
Proof.
  intros Ho. induction 1 as [|[k v] d Hv Hd IH]; simpl; auto.
  destruct (String.eqb name k); constructor; auto.
Qed.

Lemma Forall_init_player (Q : Obj -> Prop) (d : Dict.t Obj) name :
  Q new -> Forall (fun kv => Q (snd kv)) d ->
  Forall (fun kv => Q (snd kv)) (init_player new name d).
Proof.
  intros Hn Hd. unfold init_player.
  destruct (negb (Dict.mem name d)); auto using Forall_set.
Qed.

End RegistryInvariants.

(** ** The Elo update is zero-sum *)

Section EloFacts.

Local Open Scope R_scope.

(** What [self.m(competitor)] writes, [a] and [b] being the two objects
    as the method finds them. *)
Lemma elo_update_call x y Sa Sb (h : Dict.t EloObj) a b :
  Dict.get x h = Some a -> Dict.get y h = Some b ->
  call x y (elo_update Sa Sb) h =
  Dict.replace y
    {| elo_rating := elo_rating b + elo_k_factor b *
         (Sb - (1 - expected_score (elo_rating a) (elo_rating b)));
       elo_k_factor := elo_k_factor b |}
    (Dict.replace x
       {| elo_rating := elo_rating a + elo_k_factor a *
            (Sa - expected_score (elo_rating a) (elo_rating b));
          elo_k_factor := elo_k_factor a |} h).
Proof.
  intros Ha Hb. unfold elo_update. cbn [call]. rewrite Ha.
  cbn [call]. rewrite Hb. reflexivity.
Qed.

Lemma elo_update_zero_sum x y Sa Sb (h : Dict.t EloObj) a b :
  x <> y -> Sa + Sb = 1 ->
  Dict.get x h = Some a -> Dict.get y h = Some b ->
  elo_k_factor a = elo_k_factor b ->
  exists a' b',
    Dict.get x (call x y (elo_update Sa Sb) h) = Some a' /\
    Dict.get y (call x y (elo_update Sa Sb) h) = Some b' /\
    elo_rating a' - elo_rating a = - (elo_rating b' - elo_rating b).
Proof.
  intros Hne HS Ha Hb Hk.
  rewrite (elo_update_call _ _ _ _ _ _ _ Ha Hb).
  eexists _, _. split; [|split].
  - rewrite get_replace_other by exact Hne.
    apply get_replace_same. unfold Dict.mem. now rewrite Ha.
  - apply get_replace_same.
    rewrite (mem_same_keys _ _ h) by apply keys_replace.
    unfold Dict.mem. now rewrite Hb.
  - cbn [elo_rating]. rewrite Hk.
    replace Sb with (1 - Sa) by lra. ring.
Qed.

(** The three-way branch of the loop, on two distinct objects with one
    K-factor. *)
Lemma elo_result_zero_sum w p1 p2 (h : Dict.t EloObj) a b :
  p1 <> p2 ->
  Dict.get p1 h = Some a -> Dict.get p2 h = Some b ->
  elo_k_factor a = elo_k_factor b ->
  exists a' b',
    Dict.get p1 (process_result EloCompetitor w p1 p2 h) = Some a' /\
    Dict.get p2 (process_result EloCompetitor w p1 p2 h) = Some b' /\
    elo_rating a' - elo_rating a = - (elo_rating b' - elo_rating b).
Proof.
  intros Hne Ha Hb Hk. unfold process_result.
  destruct (String.eqb w "NUL"); [|destruct (String.eqb w p1)];
    cbn [EloCompetitor beat tied].
  - apply elo_update_zero_sum; auto. lra.
  - apply elo_update_zero_sum; auto. lra.
  - destruct (elo_update_zero_sum p2 p1 1 0 h b a)
      as (b' & a' & Gb & Ga & Hz); auto; try lra.
    exists a', b'. repeat split; auto. lra.
Qed.

(** Every object of a run carries the K-factor the run was given. *)
Lemma elo_call_has_k k x y Sa Sb (h : Dict.t EloObj) :
  Forall (fun kv => has_k k (snd kv)) h ->
  Forall (fun kv => has_k k (snd kv)) (call x y (elo_update Sa Sb) h).
Proof.
  intros Hh. unfold elo_update. cbn [call].
  destruct (Dict.get x h) as [a|] eqn:Ha; auto. cbn [call].
  destruct (Dict.get y h) as [b|] eqn:Hb; auto. cbn [call].
  apply Forall_replace; [|apply Forall_replace; auto].
  - exact (get_Forall (has_k k) h y b Hh Hb).
  - exact (get_Forall (has_k k) h x a Hh Ha).
Qed.

Lemma elo_updated_has_k k init m (h : Dict.t EloObj) :
  Forall (fun kv => has_k k (snd kv)) h ->
  Forall (fun kv => has_k k (snd kv))
    (updated EloCompetitor (EloCompetitor_new init k) m h).
Proof.
  intros Hh. unfold updated, process_result, materialise.
  assert (Hm : Forall (fun kv => has_k k (snd kv))
                 (init_player (EloCompetitor_new init k) (player2 m)
                    (init_player (EloCompetitor_new init k) (player1 m) h))).
  { repeat apply Forall_init_player; auto; reflexivity. }
  destruct (String.eqb (winner m) "NUL");
    [|destruct (String.eqb (winner m) (player1 m))];
    cbn [EloCompetitor beat tied]; now apply elo_call_has_k.
Qed.

End EloFacts.

(** C5, in exact arithmetic.  In a run of the Elo simulation every
    competitor has the K-factor of the run.  With the update taken over the
    real numbers, for every match of the list between two distinct
    competitors the trace entry of the match records, for each of them, a
    rating before and a rating after, and the change of player1 is the
    opposite of the change of player2. *)
Theorem elo_zero_sum
    (pre : list Match) (m : Match) (post : list Match) (k_factor init : R) :
  player1 m <> player2 m ->
  exists players history e b1 a1 b2 a2,
    run_elo_simulation (pre ++ m :: post) k_factor init =
      Returned (players, history) /\
    nth_error history (List.length pre) = Some e /\
    Dict.get (before_key (player1 m)) e = Some (VNum b1) /\
    Dict.get (after_key (player1 m)) e = Some (VNum a1) /\
    Dict.get (before_key (player2 m)) e = Some (VNum b2) /\
    Dict.get (after_key (player2 m)) e = Some (VNum a2) /\
    (a1 - b1 = - (a2 - b2))%R.
Proof.
  intros Hne. unfold run_elo_simulation.
  set (new := EloCompetitor_new init k_factor).
  destruct (simulate_split EloCompetitor new pre m post)
    as (reg0 & h0 & o1 & o2 & o1' & o2' & players & trace &
        Hpre & Hlen0 & G1 & G2 & G1' & G2' & Hstep & Hall & Hlen).
  assert (Hk0 : Forall (fun kv => has_k k_factor (snd kv)) reg0).
  { apply (for_each_invariant EloCompetitor new
             (Forall (fun kv => has_k k_factor (snd kv))))
      with (ms := pre) (players := Dict.empty) (history := [])
           (history' := h0).
    - intros. now apply elo_updated_has_k.
    - constructor.
    - exact Hpre. }
  assert (Hkm : Forall (fun kv => has_k k_factor (snd kv))
                  (materialise new m reg0)).
  { unfold materialise. repeat apply Forall_init_player; auto; reflexivity. }
  destruct (elo_result_zero_sum (winner m) (player1 m) (player2 m)
              (materialise new m reg0) o1 o2 Hne G1 G2)
    as (a' & b' & Ga & Gb & Hz).
  { rewrite (get_Forall (has_k k_factor) _ _ _ Hkm G1).
    now rewrite (get_Forall (has_k k_factor) _ _ _ Hkm G2). }
  fold (updated EloCompetitor new m reg0) in Ga, Gb.
  assert (a' = o1') by congruence. assert (b' = o2') by congruence.
  subst a' b'.
  destruct (entry_player2_fields m (elo_rating o1) (elo_rating o1')
              (elo_rating o2) (elo_rating o2')) as (B2 & A2).
  destruct (entry_player1_fields m (elo_rating o1) (elo_rating o1')
              (elo_rating o2) (elo_rating o2') Hne) as (B1 & A1).
  exists players,
    (h0 ++ history_entry m (elo_rating o1) (elo_rating o1')
             (elo_rating o2) (elo_rating o2') :: trace)%list,
    (history_entry m (elo_rating o1) (elo_rating o1')
       (elo_rating o2) (elo_rating o2')),
    (elo_rating o1), (elo_rating o1'), (elo_rating o2), (elo_rating o2').
  split; [exact Hall|].
  split; [now apply nth_error_middle|].
  auto 10.
Qed.

Lemma elo_zero_sum_witness :
  exists players history e b1 a1 b2 a2,
    run_elo_simulation ([] ++ A_beats_B :: []) 40 1200 =
      Returned (players, history) /\
    nth_error history (List.length (@nil Match)) = Some e /\
    Dict.get (before_key (player1 A_beats_B)) e = Some (VNum b1) /\
    Dict.get (after_key (player1 A_beats_B)) e = Some (VNum a1) /\
    Dict.get (before_key (player2 A_beats_B)) e = Some (VNum b2) /\
    Dict.get (after_key (player2 A_beats_B)) e = Some (VNum a2) /\
    (a1 - b1 = - (a2 - b2))%R.
Proof.
  apply (elo_zero_sum [] A_beats_B [] 40%R 1200%R).
  simpl. discriminate.
Defined.

(** C5 fails on the numbers the program stores.  K = 40.1, initial rating
    2048, A beats B: the expected score is 0.5 and both updates are 20.05 in
    size, but 2048 + 20.05 and 2048 - 20.05 are rounded on grids of
    different step.  A gains 20.050000000000182 and B loses
    20.049999999999955; both differences are exact in binary64. *)
Lemma elo_zero_sum_fails_in_binary64 :
  run_elo_simulation_float pow10_at_zero [A_beats_B] 40.1%float 2048%float =
  Returned
    ([("A", {| float_rating := 2068.05%float; float_k_factor := 40.1%float |});
      ("B", {| float_rating := 2027.95%float; float_k_factor := 40.1%float |})],
     [[("match", VInt 1%Z); ("player1", VStr "A");
       ("player2", VStr "B"); ("winner", VStr "A");
       ("A_before", VNum 2048%float); ("A_after", VNum 2068.05%float);
       ("B_before", VNum 2048%float); ("B_after", VNum 2027.95%float)]]) /\
  (2068.05 - 2048 = 20.050000000000182)%float /\
  (2027.95 - 2048 = -20.049999999999955)%float /\
  PrimFloat.eqb (2068.05 - 2048)%float (- (2027.95 - 2048))%float = false.
Proof.
  repeat split; vm_compute; reflexivity.
Qed.

(** ** A name playing itself *)

Section SelfPlay.

Context {Obj Rating : Type}.
Variable C : CompetitorClass Obj Rating.
Variable new : Obj.

Lemma init_player_idem name (d : Dict.t Obj) :
  init_player new name (init_player new name d) = init_player new name d.
Proof.
  unfold init_player at 1. now rewrite init_player_mem.
Qed.

Lemma init_player_NoDup name (d : Dict.t Obj) :
  NoDup (Dict.keys d) -> NoDup (Dict.keys (init_player new name d)).
Proof.
  intros Hd. rewrite init_player_keys.
  destruct (Dict.mem name d) eqn:E; auto.
  apply mem_false_keys in E.
  apply (Permutation_NoDup (Permutation_cons_append (Dict.keys d) name)).
  now constructor.
Qed.

Lemma updated_keys m (d : Dict.t Obj) :
  Dict.keys (updated C new m d) = Dict.keys (materialise new m d).
Proof. apply process_result_keys. Qed.

Lemma simulate_NoDup ms players history :
  simulate C new ms = Returned (players, history) -> NoDup (Dict.keys players).
Proof.
  unfold simulate.
  apply (for_each_invariant C new (fun d => NoDup (Dict.keys d))).
  - intros m d Hd. rewrite updated_keys. unfold materialise.
    now do 2 apply init_player_NoDup.
  - constructor.
Qed.

End SelfPlay.

(** C9.  A match that lists one name [n] for both players: the registry
    gets at most one new object for [n] and holds one object under [n];
    the method is called with [self] and [competitor] both at the address
    of that object; and the trace entry of the match has six keys, with one
    ["n_before"] and one ["n_after"], holding the rating of that object
    before and after the call. *)
Theorem same_name_single_object
    {Obj Rating : Type} (C : CompetitorClass Obj Rating) (new : Obj)
    (pre : list Match) (m : Match) (post : list Match) :
  player1 m = player2 m ->
  let n := player1 m in
  exists reg0 h0 players history b a,
    simulate C new pre = Returned (reg0, h0) /\
    simulate C new (pre ++ m :: post) = Returned (players, history) /\
    materialise new m reg0 = init_player new n reg0 /\
    NoDup (Dict.keys (materialise new m reg0)) /\
    updated C new m reg0 =
      call n n (if String.eqb (winner m) "NUL" then tied C else beat C)
        (materialise new m reg0) /\
    rating_of C (materialise new m reg0) n = Some b /\
    rating_of C (updated C new m reg0) n = Some a /\
    nth_error history (List.length pre) =
      Some [("match", VInt (match_ m)); ("player1", VStr n);
            ("player2", VStr n); ("winner", VStr (winner m));
            (before_key n, VNum b); (after_key n, VNum a)].
Proof.
  intros Heq n.
  destruct (simulate_split C new pre m post)
    as (reg0 & h0 & o1 & o2 & o1' & o2' & players & trace &
        Hpre & Hlen0 & G1 & G2 & G1' & G2' & Hstep & Hall & Hlen).
  exists reg0, h0, players,
    (h0 ++ history_entry m (rating C o1) (rating C o1')
             (rating C o2) (rating C o2') :: trace)%list,
    (rating C o2), (rating C o2').
  assert (Hmat : materialise new m reg0 = init_player new n reg0).
  { unfold materialise. rewrite <- Heq. apply init_player_idem. }
  split; [exact Hpre|]. split; [exact Hall|]. split; [exact Hmat|].
  split.
  { rewrite Hmat. apply init_player_NoDup.
    exact (simulate_NoDup C new pre reg0 h0 Hpre). }
  split.
  { unfold updated, process_result. rewrite <- Heq. fold n.
    destruct (String.eqb (winner m) "NUL"); auto.
    now destruct (String.eqb (winner m) n). }
  assert (o1 = o2) by (rewrite Heq in G1; congruence).
  assert (o1' = o2') by (rewrite Heq in G1'; congruence).
  subst o1 o1'.
  unfold rating_of. subst n. rewrite G1, G1'. cbn [option_map].
  do 2 (split; [reflexivity|]).
  rewrite nth_error_middle by exact Hlen0.
  rewrite (entry_same_name m _ _ _ _ Heq). now rewrite <- Heq.
Qed.

Lemma same_name_single_object_witness :
  let n := player1 A_plays_A in
  exists reg0 h0 players history b a,
    simulate EloCompetitor (EloCompetitor_new 1200 40) [] = Returned (reg0, h0) /\
    simulate EloCompetitor (EloCompetitor_new 1200 40) ([] ++ A_plays_A :: []) =
      Returned (players, history) /\
    materialise (EloCompetitor_new 1200 40) A_plays_A reg0 =
      init_player (EloCompetitor_new 1200 40) n reg0 /\
    NoDup (Dict.keys (materialise (EloCompetitor_new 1200 40) A_plays_A reg0)) /\
    updated EloCompetitor (EloCompetitor_new 1200 40) A_plays_A reg0 =
      call n n (if String.eqb (winner A_plays_A) "NUL"
                then tied EloCompetitor else beat EloCompetitor)
        (materialise (EloCompetitor_new 1200 40) A_plays_A reg0) /\
    rating_of EloCompetitor
      (materialise (EloCompetitor_new 1200 40) A_plays_A reg0) n = Some b /\
    rating_of EloCompetitor
      (updated EloCompetitor (EloCompetitor_new 1200 40) A_plays_A reg0) n =
      Some a /\
    nth_error history (List.length (@nil Match)) =
      Some [("match", VInt (match_ A_plays_A)); ("player1", VStr n);
            ("player2", VStr n); ("winner", VStr (winner A_plays_A));
            (before_key n, VNum b); (after_key n, VNum a)].
Proof.
  apply (same_name_single_object EloCompetitor (EloCompetitor_new 1200 40)
           [] A_plays_A []).
  reflexivity.
Defined.

(** ** The stable descending sort *)

Section SortFacts.

Context {A K : Type}.
Variable key : A -> K.
Variable lt : K -> K -> bool.

(** [<] is a strict weak order on the keys. *)
Hypothesis lt_irrefl : forall a, lt a a = false.
Hypothesis lt_trans : forall a b c, lt a b = true -> lt b c = true -> lt a c = true.
Hypothesis lt_negtrans :
  forall a b c, lt a b = false -> lt b c = false -> lt a c = false.

Lemma lt_asym a b : lt a b = true -> lt b a = false.
Proof.
  intros Hab. destruct (lt b a) eqn:Hba; auto.
  rewrite <- (lt_irrefl a). symmetry. eauto.
Qed.

Lemma insert_reverse_perm x l : Permutation (insert_reverse key lt x l) (x :: l).
Proof.
  induction l as [|y l IH]; simpl; auto.
  destruct (lt (key x) (key y)); auto.
  rewrite IH. apply perm_swap.
Qed.

Lemma sort_reverse_perm l : Permutation (sort_reverse key lt l) l.
Proof.
  induction l as [|x l IH]; simpl; auto.
  rewrite insert_reverse_perm. now constructor.
Qed.

Lemma insert_reverse_descending x l :
  descending key lt l -> descending key lt (insert_reverse key lt x l).
Proof.
  unfold descending.
  induction 1 as [|y l Hl IH Hy]; simpl.
  - repeat constructor.
  - destruct (lt (key x) (key y)) eqn:E.
    + constructor; auto.
      apply (Permutation_Forall (Permutation_sym (insert_reverse_perm x l))).
      constructor; auto. now apply lt_asym.
    + constructor; [now constructor|].
      constructor; auto.
      apply Forall_impl with (2 := Hy). intros z Hz. eauto.
Qed.

Lemma sort_reverse_descending l : descending key lt (sort_reverse key lt l).
Proof.
  induction l as [|x l IH]; simpl.
  - constructor.
  - now apply insert_reverse_descending.
Qed.

(** Stability: among the elements tied at a rating, the sort changes
    nothing. *)
Lemma insert_reverse_stable r x l :
  filter (tied_with key lt r) (insert_reverse key lt x l) =
  filter (tied_with key lt r) (x :: l).
Proof.
  induction l as [|y l IH]; auto.
  cbn [insert_reverse].
  destruct (lt (key x) (key y)) eqn:E; auto.
  cbn [filter] in *. rewrite IH.
  destruct (tied_with key lt r x) eqn:Tx; auto.
  destruct (tied_with key lt r y) eqn:Ty; auto.
  exfalso. unfold tied_with in Tx, Ty.
  apply andb_prop in Tx, Ty. destruct Tx as [_ Tx], Ty as [Ty _].
  apply negb_true_iff in Tx, Ty.
  rewrite (lt_negtrans _ _ _ Tx Ty) in E. discriminate.
Qed.

Lemma sort_reverse_stable r l :
  filter (tied_with key lt r) (sort_reverse key lt l) =
  filter (tied_with key lt r) l.
Proof.
  induction l as [|x l IH]; auto.
  cbn [sort_reverse]. rewrite insert_reverse_stable.
  cbn [filter]. now rewrite IH.
Qed.

End SortFacts.

(** ** The order of the registry *)

Lemma mem_existsb {V : Type} (n : string) (d : Dict.t V) :
  Dict.mem n d = existsb (String.eqb n) (Dict.keys d).
Proof.
  unfold Dict.mem.
  induction d as [|[k v] d IH]; simpl; auto.
  destruct (String.eqb n k); auto.
Qed.

Lemma filter_andb {A : Type} (f g : A -> bool) (l : list A) :
  filter f (filter g l) = filter (fun y => g y && f y) l.
Proof.
  induction l as [|x l IH]; simpl; auto.
  destruct (g x); simpl; rewrite ?IH; auto.
Qed.

Lemma existsb_snoc (n x : string) (acc : list string) :
  existsb (String.eqb n) (acc ++ [x]) =
  existsb (String.eqb n) acc || String.eqb n x.
Proof.
  rewrite existsb_app. simpl. now rewrite orb_false_r.
Qed.

(** Adding the names one by one leaves them in the order of their first
    appearance. *)
Lemma fold_add_name (l acc : list string) :
  fold_left add_name l acc =
  (acc ++ filter (fun n => negb (existsb (String.eqb n) acc)) (first_seen l))%list.
Proof.
  revert acc. induction l as [|x l IH]; intros acc; cbn [fold_left first_seen].
  - simpl. now rewrite app_nil_r.
  - rewrite IH. unfold add_name. cbn [filter].
    destruct (existsb (String.eqb x) acc) eqn:E; cbn [negb].
    + f_equal. rewrite filter_andb. apply filter_ext. intros y.
      destruct (String.eqb_spec y x) as [->|]; simpl; auto.
      now rewrite E.
    + rewrite <- app_assoc. cbn [app]. do 2 f_equal.
      rewrite filter_andb. apply filter_ext. intros y.
      rewrite existsb_snoc, negb_orb. apply andb_comm.
Qed.

Section RegistryOrder.

Context {Obj Rating : Type}.
Variable C : CompetitorClass Obj Rating.
Variable new : Obj.

Lemma init_player_add_name name (d : Dict.t Obj) :
  Dict.keys (init_player new name d) = add_name (Dict.keys d) name.
Proof.
  rewrite init_player_keys. unfold add_name.
  now rewrite mem_existsb.
Qed.

Lemma for_each_keys ms :
  forall players history players' history',
    for_each C new (players, history) ms = Returned (players', history') ->
    Dict.keys players' = fold_left add_name (names_of ms) (Dict.keys players).
Proof.
  induction ms as [|m ms IH]; intros players history players' history' Hrun;
    cbn [for_each] in Hrun.
  - now inversion Hrun; subst.
  - destruct (loop_body_updated C new players history m) as [e He].
    assert (Hrun' : for_each C new (updated C new m players,
                                    (history ++ [e])%list) ms =
                    Returned (players', history')).
    { rewrite <- Hrun. symmetry.
      etransitivity; [apply f_equal2; [exact He | reflexivity]|].
      reflexivity. }
    rewrite (IH _ _ _ _ Hrun'). cbn [names_of flat_map app fold_left].
    rewrite updated_keys. unfold materialise.
    now rewrite !init_player_add_name.
Qed.

(** The registry lists the players in the order of their first appearance
    in the match list. *)
Lemma simulate_keys ms players history :
  simulate C new ms = Returned (players, history) ->
  Dict.keys players = first_seen (names_of ms).
Proof.
  intros Hrun. apply for_each_keys in Hrun.
  rewrite Hrun, fold_add_name. cbn [Dict.keys Dict.empty map app existsb negb].
  induction (first_seen (names_of ms)) as [|x l IH]; simpl; congruence.
Qed.

End RegistryOrder.

(** C7.  For every registry, [get_final_standings] returns the (name,
    rating) pairs of the registry, each once, in descending order of rating;
    the pairs tied at any one rating come in the order the registry has
    them.  The registry a simulation returns has its players in the order
    of their first appearance in the match list.  ([<] on ratings is a
    strict weak order, as it is on numbers.) *)
Theorem final_standings_sorted_stable
    {Obj Rating : Type} (C : CompetitorClass Obj Rating)
    (lt : Rating -> Rating -> bool)
    (lt_irrefl : forall a, lt a a = false)
    (lt_trans : forall a b c, lt a b = true -> lt b c = true -> lt a c = true)
    (lt_negtrans :
       forall a b c, lt a b = false -> lt b c = false -> lt a c = false)
    (players : Dict.t Obj) :
  let pairs := map (fun it => (fst it, rating C (snd it))) (Dict.items players) in
  let standings := fst (get_final_standings (rating C) lt players) in
  Permutation standings pairs /\
  descending snd lt standings /\
  (forall r, filter (tied_with snd lt r) standings =
             filter (tied_with snd lt r) pairs) /\
  (forall new ms history,
     simulate C new ms = Returned (players, history) ->
     map fst pairs = first_seen (names_of ms)).
Proof.
  intros pairs standings.
  assert (Hs : standings = sort_reverse snd lt pairs) by reflexivity.
  rewrite Hs. repeat split.
  - apply sort_reverse_perm.
  - now apply sort_reverse_descending.
  - intros r. now apply sort_reverse_stable.
  - intros new ms history Hrun.
    rewrite <- (simulate_keys C new ms players history Hrun).
    unfold pairs, Dict.items, Dict.keys. rewrite map_map. reflexivity.
Qed.

Lemma Rltb_irrefl (a : R) : Rltb a a = false.
Proof. unfold Rltb. destruct (Rlt_dec a a); auto. lra. Qed.

Lemma Rltb_trans (a b c : R) :
  Rltb a b = true -> Rltb b c = true -> Rltb a c = true.
Proof.
  unfold Rltb.
  destruct (Rlt_dec a b), (Rlt_dec b c), (Rlt_dec a c);
    auto; try discriminate. lra.
Qed.

Lemma Rltb_negtrans (a b c : R) :
  Rltb a b = false -> Rltb b c = false -> Rltb a c = false.
Proof.
  unfold Rltb.
  destruct (Rlt_dec a b), (Rlt_dec b c), (Rlt_dec a c);
    auto; try discriminate. lra.
Qed.

Lemma final_standings_sorted_stable_witness :
  let players :=
    [("A", {| elo_rating := 1220; elo_k_factor := 40 |});
     ("B", {| elo_rating := 1180; elo_k_factor := 40 |})] in
  let pairs :=
    map (fun it => (fst it, rating EloCompetitor (snd it))) (Dict.items players) in
  let standings := fst (get_final_standings (rating EloCompetitor) Rltb players) in
  Permutation standings pairs /\
  descending snd Rltb standings /\
  (forall r, filter (tied_with snd Rltb r) standings =
             filter (tied_with snd Rltb r) pairs) /\
  (forall new ms history,
     simulate EloCompetitor new ms = Returned (players, history) ->
     map fst pairs = first_seen (names_of ms)).
Proof.
  exact (final_standings_sorted_stable EloCompetitor Rltb
           Rltb_irrefl Rltb_trans Rltb_negtrans
           [("A", {| elo_rating := 1220; elo_k_factor := 40 |});
            ("B", {| elo_rating := 1180; elo_k_factor := 40 |})]).
Defined.

(** Three players, two of them tied: the higher rating first, the tied ones
    as the registry has them. *)
Example standings_tie_order :
  fst (get_final_standings (fun z : Z => z) Z.ltb
         [("A", 1200%Z); ("B", 1220%Z); ("C", 1200%Z)]) =
  [("B", 1220%Z); ("A", 1200%Z); ("C", 1200%Z)].
Proof. reflexivity. Qed.

(** ** The reporters leave the registry alone *)

Section StoreFacts.

Context {Obj X : Type}.
Implicit Types (s : store Obj X) (a : nat) (l : list X).

Lemma nth_error_set_list_other {A : Type} (ls : list A) a i (x : A) :
  i <> a -> nth_error (set_list a x ls) i = nth_error ls i.
Proof.
  revert a i. induction ls as [|y ls IH]; intros [|a] [|i] Hne;
    cbn; auto; try contradiction; try (apply IH; congruence).
Qed.

Lemma nth_error_set_list_same {A : Type} (ls : list A) a (x : A) :
  a < List.length ls -> nth_error (set_list a x ls) a = Some x.
Proof.
  revert a. induction ls as [|y ls IH]; intros [|a] Hlt; cbn in *;
    auto; try lia; try (apply IH; lia).
Qed.

Lemma length_set_list {A : Type} (ls : list A) a (x : A) :
  List.length (set_list a x ls) = List.length ls.
Proof.
  revert a. induction ls as [|y ls IH]; intros [|a]; cbn; auto.
Qed.

Lemma keeps_new_list s l :
  keeps s (snd (new_list l s)) (fst (new_list l s)) l.
Proof.
  unfold keeps, new_list. cbn. repeat split.
  - intros i Hi. now rewrite nth_error_app1.
  - rewrite nth_error_app2 by lia. now rewrite Nat.sub_diag.
Qed.

Lemma keeps_update s s' a l (f : list X -> list X) :
  keeps s s' a l -> keeps s (snd (update_list a f s')) a (f l).
Proof.
  intros (Hr & Hold & Ha & Hl). unfold keeps, update_list, st_modify.
  cbn [snd]. rewrite Hl. cbn [registry_ lists_].
  assert (Hlt : a < List.length (lists_ s')).
  { apply nth_error_Some. congruence. }
  repeat split; auto.
  - intros i Hi. rewrite nth_error_set_list_other by lia. now apply Hold.
  - now apply nth_error_set_list_same.
Qed.

Lemma keeps_append_each s s' a l (rows : list X) :
  keeps s s' a l -> keeps s (snd (append_each a rows s')) a (l ++ rows).
Proof.
  revert s' l. induction rows as [|x rows IH]; intros s' l Hk.
  - cbn. now rewrite app_nil_r.
  - cbn [append_each]. unfold st_bind.
    destruct (list_append a x s') as [u s''] eqn:E.
    replace (l ++ x :: rows)%list with ((l ++ [x]) ++ rows)%list
      by now rewrite <- app_assoc.
    apply IH.
    assert (Hs : s'' = snd (update_list a (fun l0 => (l0 ++ [x])%list) s'))
      by (unfold list_append in E; now rewrite E).
    rewrite Hs.
    exact (keeps_update s s' a l (fun l0 => (l0 ++ [x])%list) Hk).
Qed.

End StoreFacts.

(** C10.  On a store holding the registry and any list objects, both
    reporters leave the registry as it is: the same entries in the same
    order, every competitor with the state it had.  The one object they
    write to is the list they build themselves: it is a new object, no list
    that existed before the call is changed by the appends or by the
    in-place sort, and what it holds at the end is the ranking. *)
Theorem reporters_leave_registry
    {Obj Rating : Type} (rating_ rd_ volatility_ : Obj -> Rating)
    (lt : Rating -> Rating -> bool)
    (s1 : store Obj (string * Rating)) (s2 : store Obj (Glicko2Row Rating)) :
  keeps s1 (snd (get_final_standings_in_store rating_ lt s1))
    (fst (get_final_standings_in_store rating_ lt s1))
    (fst (get_final_standings rating_ lt (registry_ s1))) /\
  keeps s2
    (snd (get_glicko2_standings_in_store rating_ rd_ volatility_ lt s2))
    (fst (get_glicko2_standings_in_store rating_ rd_ volatility_ lt s2))
    (fst (get_glicko2_standings_with_uncertainty rating_ rd_ volatility_ lt
            (registry_ s2))).
Proof.
  split.
  - unfold get_final_standings_in_store, st_bind, st_read, st_ret.
    pose proof (keeps_new_list s1 (standings_of rating_ (Dict.items (registry_ s1))))
      as Hk.
    destruct (new_list (standings_of rating_ (Dict.items (registry_ s1))) s1)
      as [a s'] eqn:E. cbn [fst snd] in Hk.
    apply (keeps_update s1 s' a _ (sort_reverse snd lt)) in Hk.
    unfold list_sort.
    destruct (update_list a (sort_reverse snd lt) s') as [u s''].
    exact Hk.
  - unfold get_glicko2_standings_in_store, st_bind, st_read, st_ret.
    pose proof (keeps_new_list s2 []) as Hk.
    destruct (new_list [] s2) as [a s'] eqn:E. cbn [fst snd] in Hk.
    assert (Hreg : registry_ s' = registry_ s2) by apply Hk.
    rewrite Hreg.
    apply (keeps_append_each s2 s' a []
             (map (fun it =>
                     {| row_name := fst it; row_rating := rating_ (snd it);
                        row_rd := rd_ (snd it);
                        row_volatility := volatility_ (snd it) |})
                (Dict.items (registry_ s2)))) in Hk.
    destruct (append_each a _ s') as [u s''].
    cbn [fst snd app] in Hk.
    apply (keeps_update s2 s'' a _ (sort_reverse row_rating lt)) in Hk.
    unfold list_sort.
    destruct (update_list a (sort_reverse row_rating lt) s'') as [u' s3].
    exact Hk.
Qed.

(** A reporter that wrote to the registry would not pass: here one that
    drops a player while it makes its list. *)
Example registry_writer_is_caught :
  let s : store Z (string * Z) :=
    {| registry_ := [("A", 1200%Z)]; lists_ := [] |} in
  ~ keeps s
      (snd (st_modify (fun s : store Z (string * Z) =>
                         {| registry_ := Dict.empty;
                            lists_ := lists_ s ++ [[]] |}) s))
      0 [].
Proof.
  cbn. intros (Hr & _). discriminate Hr.
Qed.

(* ================================================================== *)
(** * Further properties *)

(** ** Reading the match file *)

Section ParseFacts.

Variable strip : string -> string.
Variable int : string -> option Z.

Lemma parse_loop_cons acc l rest :
  parse_loop strip int acc (l :: rest) =
  match read_line strip int l with
  | None => parse_loop strip int acc rest
  | Some (Parsed m) => parse_loop strip int (acc ++ [m])%list rest
  | Some (ValueError s) => ValueError s
  end.
Proof.
  cbn [parse_loop]. unfold read_line.
  destruct (String.eqb (strip l) ""); auto.
  destruct (split_comma (strip l)) as [|f0 [|f1 [|f2 [|f3 [|f4 [|f5 more]]]]]];
    auto.
  destruct (int f0); auto.
Qed.

Lemma read_line_skipped l :
  read_line strip int l = None <-> skipped_line strip l = true.
Proof.
  unfold read_line, skipped_line.
  destruct (String.eqb (strip l) ""); [tauto|].
  destruct (split_comma (strip l)) as [|f0 [|f1 [|f2 [|f3 [|f4 [|f5 more]]]]]];
    cbn; try tauto.
  destruct (int f0); split; discriminate.
Qed.

Lemma read_line_gives l m :
  read_line strip int l = Some (Parsed m) <-> line_gives strip int l m.
Proof.
  unfold read_line, line_gives. split.
  - destruct (String.eqb_spec (strip l) ""); [discriminate|].
    destruct (split_comma (strip l))
      as [|f0 [|f1 [|f2 [|f3 [|f4 [|f5 more]]]]]]; try discriminate.
    destruct (int f0) as [z|] eqn:E; [|discriminate].
    intros [= <-]. exists f0, f1, f2, f3, f4, f5, more. auto 10.
  - intros (f0 & f1 & f2 & f3 & f4 & f5 & more & Hne & -> & Hint & H1 & H2 & H3).
    apply String.eqb_neq in Hne. rewrite Hne, Hint.
    destruct m; cbn in *. now subst.
Qed.

Lemma read_line_rejected l s :
  read_line strip int l = Some (ValueError s) <-> line_rejected strip int l s.
Proof.
  unfold read_line, line_rejected. split.
  - destruct (String.eqb_spec (strip l) ""); [discriminate|].
    destruct (split_comma (strip l))
      as [|f0 [|f1 [|f2 [|f3 [|f4 [|f5 more]]]]]]; try discriminate.
    destruct (int f0) as [z|] eqn:E; [discriminate|].
    intros [= <-]. eexists. repeat split; auto. cbn. lia.
  - intros (fields & Hne & -> & Hlen & Hint).
    apply String.eqb_neq in Hne. rewrite Hne, Hint.
    destruct fields as [|f1 [|f2 [|f3 [|f4 [|f5 more]]]]]; cbn in Hlen;
      try lia. reflexivity.
Qed.

(** The list built so far only ever grows at its end. *)
Lemma parse_loop_acc lines :
  forall acc,
    parse_loop strip int acc lines =
    match parse_loop strip int [] lines with
    | Parsed ms => Parsed (acc ++ ms)%list
    | ValueError s => ValueError s
    end.
Proof.
  induction lines as [|l rest IH]; intros acc.
  - cbn. now rewrite app_nil_r.
  - rewrite !parse_loop_cons.
    destruct (read_line strip int l) as [[m|s]|]; auto.
    rewrite (IH (acc ++ [m])%list), (IH ([] ++ [m])%list).
    destruct (parse_loop strip int [] rest); auto.
    now rewrite <- app_assoc.
Qed.

Lemma parse_loop_app pre post :
  parse_loop strip int [] (pre ++ post) =
  match parse_loop strip int [] pre with
  | Parsed ms => parse_loop strip int ms post
  | ValueError s => ValueError s
  end.
Proof.
  induction pre as [|l pre IH]; auto.
  cbn [app]. rewrite !parse_loop_cons.
  destruct (read_line strip int l) as [[m|s]|]; auto.
  rewrite (parse_loop_acc (pre ++ post)), (parse_loop_acc pre), IH.
  destruct (parse_loop strip int [] pre) as [ms|s]; auto.
  cbn [app]. rewrite (parse_loop_acc post ms), (parse_loop_acc post (m :: ms)).
  now destruct (parse_loop strip int [] post).
Qed.

End ParseFacts.

Lemma skipn_header {A : Type} (header data : list A) :
  List.length header = 3 -> skipn 3 (header ++ data) = data.
Proof.
  intros Hh. rewrite skipn_app, Hh, Nat.sub_diag.
  rewrite skipn_all2 by lia. reflexivity.
Qed.

Section ParseTheorems.

Variable strip : string -> string.
Variable int : string -> option Z.

Let kept (l : string) : bool := negb (skipped_line strip l).

Lemma parse_loop_gives data :
  forall ms,
    parse_loop strip int [] data = Parsed ms ->
    Forall2 (line_gives strip int) (filter kept data) ms.
Proof.
  induction data as [|l rest IH]; intros ms Hp.
  - cbn in Hp. injection Hp as <-. constructor.
  - rewrite parse_loop_cons in Hp. cbn [filter]. unfold kept at 1.
    destruct (read_line strip int l) as [[m|s]|] eqn:E.
    + assert (Hk : skipped_line strip l = false).
      { destruct (skipped_line strip l) eqn:K; auto.
        apply (proj2 (read_line_skipped strip int l)) in K. congruence. }
      rewrite Hk. cbn [negb].
      rewrite parse_loop_acc in Hp.
      destruct (parse_loop strip int [] rest) as [ms'|] eqn:R; [|discriminate].
      injection Hp as <-. cbn [app]. constructor; auto.
      now apply read_line_gives.
    + discriminate.
    + apply read_line_skipped in E. rewrite E. cbn [negb]. auto.
Qed.

Lemma parse_loop_error data :
  forall s,
    parse_loop strip int [] data = ValueError s ->
    exists pre l post ms,
      data = (pre ++ l :: post)%list /\
      parse_loop strip int [] pre = Parsed ms /\
      line_rejected strip int l s.
Proof.
  induction data as [|l rest IH]; intros s Hp.
  - discriminate.
  - rewrite parse_loop_cons in Hp.
    destruct (read_line strip int l) as [[m|s']|] eqn:E.
    + rewrite parse_loop_acc in Hp.
      destruct (parse_loop strip int [] rest) as [|s''] eqn:R; [discriminate|].
      injection Hp as ->.
      destruct (IH s eq_refl) as (pre & l' & post & ms & -> & Hpre & Hrej).
      exists (l :: pre), l', post, (m :: ms). repeat split; auto.
      rewrite parse_loop_cons, E, parse_loop_acc, Hpre. reflexivity.
    + injection Hp as ->. exists [], l, rest, []. repeat split; auto.
      now apply read_line_rejected.
    + destruct (IH s Hp) as (pre & l' & post & ms & -> & Hpre & Hrej).
      exists (l :: pre), l', post, ms. repeat split; auto.
      now rewrite parse_loop_cons, E.
Qed.

(** A file that is read without error and has three lines or fewer, the
    empty file among them, holds no match: the lines of the header are
    never taken apart, so nothing in them can make [int] raise. *)
Theorem parse_file_header_only (lines : list string) :
  List.length lines <= 3 ->
  parse_matches_of_file strip int (FileLines lines) = Matches [].
Proof.
  intros Hlen. unfold parse_matches_of_file, parse_matches.
  rewrite skipn_all2 by exact Hlen. reflexivity.
Qed.

(** A data line that is blank once stripped, or that has fewer than six
    comma-separated fields, changes nothing: the file parses as the file
    without that line, whatever the line holds. *)
Theorem parse_matches_skips_line (header pre : list string) (l : string)
    (post : list string) :
  List.length header = 3 ->
  skipped_line strip l = true ->
  parse_matches strip int (header ++ pre ++ l :: post) =
  parse_matches strip int (header ++ pre ++ post).
Proof.
  intros Hh Hs. unfold parse_matches.
  rewrite !skipn_header by exact Hh.
  rewrite !parse_loop_app.
  destruct (parse_loop strip int [] pre) as [ms|s]; auto.
  rewrite parse_loop_cons.
  apply (proj2 (read_line_skipped strip int l)) in Hs. now rewrite Hs.
Qed.

(** When [parse_matches] returns, the matches are, in file order, one for
    each data line that is not passed over, and each match has the number
    read from field 0 and the stripped fields 1, 3 and 5 of its line as the
    two players and the winner.  There are no more matches than lines after
    the header. *)
Theorem parse_matches_fields (lines : list string) (ms : list Match) :
  parse_matches strip int lines = Parsed ms ->
  Forall2 (line_gives strip int)
    (filter (fun l => negb (skipped_line strip l)) (skipn 3 lines)) ms /\
  List.length ms <= List.length lines - 3.
Proof.
  intros Hp. apply parse_loop_gives in Hp. split; [exact Hp|].
  apply Forall2_length in Hp. rewrite <- Hp.
  etransitivity; [apply filter_length_le|].
  now rewrite length_skipn.
Qed.

(** [parse_matches] ends without a list of matches in two ways only.
    Either the reading of the file raised, and that error is passed on
    before any line is taken apart; or [int] raised [ValueError] on a match
    number: then a data line, not passed over, has the rejected text as its
    first field, and the lines before it were all read. *)
Theorem parse_file_error_cause (file : file_read) :
  (forall ms, parse_matches_of_file strip int file <> Matches ms) ->
  (exists error,
     file = FileError error /\
     parse_matches_of_file strip int file = ReadingError error) \/
  (exists lines s pre l post ms,
     file = FileLines lines /\
     parse_matches_of_file strip int file = IntValueError s /\
     skipn 3 lines = (pre ++ l :: post)%list /\
     parse_loop strip int [] pre = Parsed ms /\
     line_rejected strip int l s).
Proof.
  intros Hno. destruct file as [lines|error].
  - right. cbn [parse_matches_of_file] in *.
    destruct (parse_matches strip int lines) as [ms|s] eqn:E.
    + exfalso. exact (Hno ms eq_refl).
    + destruct (parse_loop_error (skipn 3 lines) s E)
        as (pre & l & post & ms & Hs & Hpre & Hrej).
      exists lines, s, pre, l, post, ms. auto.
  - left. exists error. auto.
Qed.

(** A data line with six fields or more whose first field is no number
    aborts the parse: the error is raised whatever follows the line, and the
    matches read before it are not returned. *)
Theorem parse_matches_aborts (header pre : list string) (l : string)
    (post : list string) (ms : list Match) (s : string) :
  List.length header = 3 ->
  parse_loop strip int [] pre = Parsed ms ->
  line_rejected strip int l s ->
  parse_matches strip int (header ++ pre ++ l :: post) = ValueError s.
Proof.
  intros Hh Hpre Hrej. unfold parse_matches.
  rewrite skipn_header by exact Hh.
  rewrite parse_loop_app, Hpre, parse_loop_cons.
  apply read_line_rejected in Hrej. now rewrite Hrej.
Qed.

End ParseTheorems.

Lemma parse_file_header_only_witness :
  parse_matches_of_file ascii_strip decimal_int
    (FileLines ["Duels"; "x,y,z,t,u,v"]) = Matches [].
Proof.
  apply (parse_file_header_only ascii_strip decimal_int
           ["Duels"; "x,y,z,t,u,v"]).
  simpl. lia.
Defined.

Lemma parse_matches_skips_line_witness :
  parse_matches ascii_strip decimal_int
    (["h1"; "h2"; "h3"] ++ ["1,A,,B,,A"] ++ "total,2" :: ["2,B,,C,,NUL"]) =
  parse_matches ascii_strip decimal_int
    (["h1"; "h2"; "h3"] ++ ["1,A,,B,,A"] ++ ["2,B,,C,,NUL"]).
Proof.
  apply (parse_matches_skips_line ascii_strip decimal_int
           ["h1"; "h2"; "h3"] ["1,A,,B,,A"] "total,2" ["2,B,,C,,NUL"]);
    reflexivity.
Defined.

Lemma parse_matches_fields_witness :
  Forall2 (line_gives ascii_strip decimal_int)
    (filter (fun l => negb (skipped_line ascii_strip l))
       (skipn 3 ["h1"; "h2"; "h3"; "1, A ,1200, B ,1200,A"; "";
                 "2,B,,C,,NUL"]))
    [{| match_ := 1; player1 := "A"; player2 := "B"; winner := "A" |};
     {| match_ := 2; player1 := "B"; player2 := "C"; winner := "NUL" |}] /\
  List.length
    [{| match_ := 1; player1 := "A"; player2 := "B"; winner := "A" |};
     {| match_ := 2; player1 := "B"; player2 := "C"; winner := "NUL" |}] <=
  List.length ["h1"; "h2"; "h3"; "1, A ,1200, B ,1200,A"; ""; "2,B,,C,,NUL"] - 3.
Proof.
  apply (parse_matches_fields ascii_strip decimal_int
           ["h1"; "h2"; "h3"; "1, A ,1200, B ,1200,A"; ""; "2,B,,C,,NUL"]).
  reflexivity.
Defined.

Lemma parse_file_error_cause_witness :
  let file := FileLines ["h1"; "h2"; "h3"; "1,A,,B,,A"; "two,B,,C,,NUL"] in
  (exists error,
     file = FileError error /\
     parse_matches_of_file ascii_strip decimal_int file = ReadingError error) \/
  (exists lines s pre l post ms,
     file = FileLines lines /\
     parse_matches_of_file ascii_strip decimal_int file = IntValueError s /\
     skipn 3 lines = (pre ++ l :: post)%list /\
     parse_loop ascii_strip decimal_int [] pre = Parsed ms /\
     line_rejected ascii_strip decimal_int l s).
Proof.
  apply (parse_file_error_cause ascii_strip decimal_int
           (FileLines ["h1"; "h2"; "h3"; "1,A,,B,,A"; "two,B,,C,,NUL"])).
  intros ms. vm_compute. discriminate.
Defined.

Lemma parse_matches_aborts_witness :
  parse_matches ascii_strip decimal_int
    (["h1"; "h2"; "h3"] ++ ["1,A,,B,,A"] ++ "two,B,,C,,NUL" :: ["3,A,,C,,C"]) =
  ValueError "two".
Proof.
  apply (parse_matches_aborts ascii_strip decimal_int
           ["h1"; "h2"; "h3"] ["1,A,,B,,A"] "two,B,,C,,NUL" ["3,A,,C,,C"]
           [{| match_ := 1; player1 := "A"; player2 := "B"; winner := "A" |}]
           "two").
  - reflexivity.
  - reflexivity.
  - exists ["B"; ""; "C"; ""; "NUL"]. repeat split.
    + discriminate.
    + simpl. lia.
Defined.

(** ** What a match leaves alone *)

Lemma get_replace {V : Type} (n k : string) (v : V) (d : Dict.t V) :
  Dict.get n (Dict.replace k v d) =
  if String.eqb n k
  then match Dict.get k d with Some _ => Some v | None => None end
  else Dict.get n d.
Proof.
  destruct (String.eqb_spec n k) as [->|Hne].
  - destruct (Dict.get k d) eqn:E.
    + apply get_replace_same. unfold Dict.mem. now rewrite E.
    + induction d as [|[k' v'] d IH]; auto.
      cbn in *. destruct (String.eqb k k') eqn:K; [discriminate|].
      cbn. rewrite K. auto.
  - now apply get_replace_other.
Qed.

Lemma call_get_other {Obj : Type} (self competitor n : string)
    (body : method Obj) :
  n <> self -> n <> competitor ->
  forall heap,
    Dict.get n (call self competitor body heap) = Dict.get n heap.
Proof.
  intros Hs Hc. induction body as [|w k IH|w o k IH]; intros heap; cbn [call].
  - reflexivity.
  - destruct (Dict.get _ heap); auto.
  - rewrite IH. apply get_replace_other. now destruct w.
Qed.

Section FrameFacts.

Context {Obj Rating : Type}.
Variable C : CompetitorClass Obj Rating.
Variable new : Obj.

Lemma init_player_get n name (d : Dict.t Obj) :
  Dict.get n (init_player new name d) =
  match Dict.get n d with
  | Some o => Some o
  | None => if String.eqb n name then Some new else None
  end.
Proof.
  unfold init_player, Dict.mem.
  destruct (String.eqb_spec n name) as [->|Hne].
  - destruct (Dict.get name d) eqn:E; cbn [negb]; auto.
    apply get_set_same.
  - destruct (Dict.get name d); cbn [negb].
    + now destruct (Dict.get n d).
    + rewrite get_set_other by exact Hne. now destruct (Dict.get n d).
Qed.

Lemma materialise_get_player m (d : Dict.t Obj) n :
  n = player1 m \/ n = player2 m ->
  Dict.get n (materialise new m d) =
  Some match Dict.get n d with Some o => o | None => new end.
Proof.
  intros Hn. unfold materialise. rewrite !init_player_get.
  destruct (Dict.get n d); auto.
  destruct Hn as [->| ->].
  - rewrite String.eqb_refl. now destruct (String.eqb (player1 m) (player2 m)).
  - rewrite String.eqb_refl. now destruct (String.eqb (player2 m) (player1 m)).
Qed.

Lemma updated_get_other m (d : Dict.t Obj) n :
  n <> player1 m -> n <> player2 m ->
  Dict.get n (updated C new m d) = Dict.get n d.
Proof.
  intros H1 H2. unfold updated, process_result.
  assert (Hm : Dict.get n (materialise new m d) = Dict.get n d).
  { unfold materialise. rewrite !init_player_get.
    apply String.eqb_neq in H1, H2. rewrite H1, H2.
    now destruct (Dict.get n d). }
  destruct (String.eqb (winner m) "NUL");
    [|destruct (String.eqb (winner m) (player1 m))];
    rewrite call_get_other; auto.
Qed.

Lemma for_each_get_other post :
  forall (d : Dict.t Obj) h d' h' n,
    for_each C new (d, h) post = Returned (d', h') ->
    ~ In n (names_of post) ->
    Dict.get n d' = Dict.get n d.
Proof.
  induction post as [|m post IH]; intros d h d' h' n Hrun Hn;
    cbn [for_each] in Hrun.
  - now inversion Hrun; subst.
  - destruct (loop_body_updated C new d h m) as [e He].
    assert (Hrun' : for_each C new (updated C new m d, (h ++ [e])%list) post =
                    Returned (d', h')).
    { rewrite <- Hrun. symmetry.
      etransitivity; [apply f_equal2; [exact He | reflexivity]|].
      reflexivity. }
    cbn [names_of flat_map app In] in Hn.
    rewrite (IH _ _ _ _ n Hrun') by (unfold names_of; tauto).
    apply updated_get_other; intros ->; tauto.
Qed.

Lemma simulate_continue pre post reg0 h0 :
  simulate C new pre = Returned (reg0, h0) ->
  simulate C new (pre ++ post) = for_each C new (reg0, h0) post.
Proof.
  intros Hpre. unfold simulate in *. now rewrite for_each_app, Hpre.
Qed.

(** A player who is in none of the later matches keeps its object: the
    matches of others never touch its rating or any other attribute. *)
Theorem non_participant_untouched pre post reg0 h0 players history n :
  simulate C new pre = Returned (reg0, h0) ->
  simulate C new (pre ++ post) = Returned (players, history) ->
  ~ In n (names_of post) ->
  Dict.get n players = Dict.get n reg0.
Proof.
  intros Hpre Hall Hn.
  rewrite (simulate_continue pre post reg0 h0 Hpre) in Hall.
  exact (for_each_get_other post reg0 h0 players history n Hall Hn).
Qed.

(** Replaying a list that was extended at its end gives the old trace with
    one new entry per added match behind it: no entry of the trace is
    rewritten or dropped by a later match. *)
Theorem trace_grows_at_end pre post reg0 h0 players history :
  simulate C new pre = Returned (reg0, h0) ->
  simulate C new (pre ++ post) = Returned (players, history) ->
  exists trace,
    history = (h0 ++ trace)%list /\ List.length trace = List.length post.
Proof.
  intros Hpre Hall.
  rewrite (simulate_continue pre post reg0 h0 Hpre) in Hall.
  destruct (for_each_returns C new post reg0 h0) as (p' & trace & Hrun & Hlen).
  exists trace. split; [congruence | exact Hlen].
Qed.

(** The rating recorded before a match is, for each of its two players,
    the rating the player had after the matches before, and the rating of a
    freshly made competitor for a player not met before; a player already
    in the registry is never made anew. *)
Theorem before_rating_origin pre m post :
  exists reg0 h0 players history e,
    simulate C new pre = Returned (reg0, h0) /\
    simulate C new (pre ++ m :: post) = Returned (players, history) /\
    nth_error history (List.length pre) = Some e /\
    Dict.get (before_key (player1 m)) e =
      Some (VNum match rating_of C reg0 (player1 m) with
                 | Some r => r
                 | None => rating C new
                 end) /\
    Dict.get (before_key (player2 m)) e =
      Some (VNum match rating_of C reg0 (player2 m) with
                 | Some r => r
                 | None => rating C new
                 end).
Proof.
  destruct (simulate_split C new pre m post)
    as (reg0 & h0 & o1 & o2 & o1' & o2' & players & trace &
        Hpre & Hlen0 & G1 & G2 & G1' & G2' & Hstep & Hall & Hlen).
  exists reg0, h0, players,
    (h0 ++ history_entry m (rating C o1) (rating C o1')
             (rating C o2) (rating C o2') :: trace)%list,
    (history_entry m (rating C o1) (rating C o1') (rating C o2) (rating C o2')).
  split; [exact Hpre|]. split; [exact Hall|].
  split; [now apply nth_error_middle|].
  rewrite materialise_get_player in G1, G2 by auto.
  injection G1 as G1. injection G2 as G2.
  destruct (entry_player2_fields m (rating C o1) (rating C o1')
              (rating C o2) (rating C o2')) as (B2 & _).
  assert (R2 : rating C o2 =
               match rating_of C reg0 (player2 m) with
               | Some r => r | None => rating C new end).
  { unfold rating_of. rewrite <- G2. now destruct (Dict.get (player2 m) reg0). }
  assert (R1 : rating C o1 =
               match rating_of C reg0 (player1 m) with
               | Some r => r | None => rating C new end).
  { unfold rating_of. rewrite <- G1. now destruct (Dict.get (player1 m) reg0). }
  split; [|now rewrite <- R2].
  rewrite <- R1.
  destruct (string_dec (player1 m) (player2 m)) as [Heq|Hne].
  - rewrite Heq in *. rewrite B2. do 2 f_equal. congruence.
  - now destruct (entry_player1_fields m (rating C o1) (rating C o1')
                    (rating C o2) (rating C o2') Hne).
Qed.

End FrameFacts.

Lemma non_participant_untouched_witness :
  exists reg0 h0 players history,
    simulate EloCompetitor (EloCompetitor_new 1200 40) [A_beats_B] =
      Returned (reg0, h0) /\
    simulate EloCompetitor (EloCompetitor_new 1200 40)
      ([A_beats_B] ++ [B_beats_C]) = Returned (players, history) /\
    Dict.get "A" players = Dict.get "A" reg0.
Proof.
  eexists _, _, _, _.
  split; [elo_eval; reflexivity|]. split; [elo_eval; reflexivity|].
  eapply (non_participant_untouched EloCompetitor (EloCompetitor_new 1200 40)
            [A_beats_B] [B_beats_C]).
  - elo_eval. reflexivity.
  - elo_eval. reflexivity.
  - simpl. intros [H|[H|[]]]; discriminate H.
Defined.

Lemma trace_grows_at_end_witness :
  exists reg0 h0 players history,
    simulate EloCompetitor (EloCompetitor_new 1200 40) [A_beats_B] =
      Returned (reg0, h0) /\
    simulate EloCompetitor (EloCompetitor_new 1200 40)
      ([A_beats_B] ++ [B_beats_C]) = Returned (players, history) /\
    exists trace,
      history = (h0 ++ trace)%list /\
      List.length trace = List.length [B_beats_C].
Proof.
  eexists _, _, _, _.
  split; [elo_eval; reflexivity|]. split; [elo_eval; reflexivity|].
  eapply (trace_grows_at_end EloCompetitor (EloCompetitor_new 1200 40)
            [A_beats_B] [B_beats_C]).
  - elo_eval. reflexivity.
  - elo_eval. reflexivity.
Defined.

(** ** The two columns of a decisive match *)

Lemma call_same_objects {Obj : Type} (self competitor : string)
    (body : method Obj) :
  forall d d', same_objects d d' ->
    same_objects (call self competitor body d) (call self competitor body d').
Proof.
  induction body as [|w k IH|w o k IH]; intros d d' Hd; cbn [call]; auto.
  - rewrite <- Hd. destruct (Dict.get _ d); auto.
  - apply IH. intros n. rewrite !get_replace, !Hd. reflexivity.
Qed.

Section ColumnFacts.

Context {Obj Rating : Type}.
Variable C : CompetitorClass Obj Rating.
Variable new : Obj.

Lemma init_player_same_objects name (d d' : Dict.t Obj) :
  same_objects d d' ->
  same_objects (init_player new name d) (init_player new name d').
Proof.
  intros Hd n. now rewrite !init_player_get, Hd.
Qed.

Lemma updated_same_objects m (d d' : Dict.t Obj) :
  same_objects d d' -> same_objects (updated C new m d) (updated C new m d').
Proof.
  intros Hd. unfold updated, process_result, materialise.
  destruct (String.eqb (winner m) "NUL");
    [|destruct (String.eqb (winner m) (player1 m))];
    now apply call_same_objects; do 2 apply init_player_same_objects.
Qed.

Lemma for_each_same_objects ms :
  forall (d1 d2 : Dict.t Obj) h1 h2 d1' h1' d2' h2',
    same_objects d1 d2 ->
    for_each C new (d1, h1) ms = Returned (d1', h1') ->
    for_each C new (d2, h2) ms = Returned (d2', h2') ->
    same_objects d1' d2'.
Proof.
  induction ms as [|m ms IH]; intros d1 d2 h1 h2 d1' h1' d2' h2' Hd R1 R2;
    cbn [for_each] in R1, R2.
  - inversion R1; inversion R2; now subst.
  - destruct (loop_body_updated C new d1 h1 m) as [e1 E1].
    destruct (loop_body_updated C new d2 h2 m) as [e2 E2].
    assert (R1' : for_each C new (updated C new m d1, (h1 ++ [e1])%list) ms =
                  Returned (d1', h1')).
    { rewrite <- R1. symmetry.
      etransitivity; [apply f_equal2; [exact E1 | reflexivity]|].
      reflexivity. }
    assert (R2' : for_each C new (updated C new m d2, (h2 ++ [e2])%list) ms =
                  Returned (d2', h2')).
    { rewrite <- R2. symmetry.
      etransitivity; [apply f_equal2; [exact E2 | reflexivity]|].
      reflexivity. }
    eapply IH; [|exact R1'|exact R2']. now apply updated_same_objects.
Qed.

Lemma materialise_swap m (d : Dict.t Obj) :
  same_objects (materialise new (swap_players m) d) (materialise new m d).
Proof.
  intros n. unfold materialise. cbn [swap_players player1 player2].
  rewrite !init_player_get.
  destruct (Dict.get n d); auto.
  destruct (String.eqb n (player1 m)), (String.eqb n (player2 m)); auto.
Qed.

Lemma updated_swap m (d : Dict.t Obj) :
  winner m <> "NUL" ->
  winner m = player1 m \/ winner m = player2 m ->
  same_objects (updated C new (swap_players m) d) (updated C new m d).
Proof.
  intros Hnul Hw. unfold updated, process_result.
  cbn [swap_players player1 player2 winner].
  apply String.eqb_neq in Hnul. rewrite Hnul.
  assert (Hsame : forall body,
            same_objects
              (call (winner m) (if String.eqb (winner m) (player1 m)
                                then player2 m else player1 m)
                 body (materialise new (swap_players m) d))
              (call (winner m) (if String.eqb (winner m) (player1 m)
                                then player2 m else player1 m)
                 body (materialise new m d))).
  { intros body. apply call_same_objects, materialise_swap. }
  specialize (Hsame (beat C)).
  destruct (String.eqb_spec (winner m) (player1 m)) as [E1|N1];
    destruct (String.eqb_spec (winner m) (player2 m)) as [E2|N2].
  - rewrite <- E1, <- E2 in *. exact Hsame.
  - rewrite <- E1 in *. exact Hsame.
  - rewrite <- E2 in *. exact Hsame.
  - tauto.
Qed.

(** A decisive match may list its two players in either column: when the
    outcome string names one of them (and is not the draw marker), the run
    with the columns exchanged leaves every player with the same object,
    hence the same rating, as the run with the match as it is. *)
Theorem decisive_match_columns pre m post players history players' history' :
  winner m <> "NUL" ->
  winner m = player1 m \/ winner m = player2 m ->
  simulate C new (pre ++ m :: post) = Returned (players, history) ->
  simulate C new (pre ++ swap_players m :: post) = Returned (players', history') ->
  forall n, Dict.get n players' = Dict.get n players.
Proof.
  intros Hnul Hw R1 R2.
  destruct (simulate_returns C new pre) as [[reg0 h0] Hpre].
  rewrite (simulate_continue C new pre _ reg0 h0 Hpre) in R1.
  rewrite (simulate_continue C new pre _ reg0 h0 Hpre) in R2.
  cbn [for_each] in R1, R2.
  destruct (loop_body_updated C new reg0 h0 m) as [e1 E1].
  destruct (loop_body_updated C new reg0 h0 (swap_players m)) as [e2 E2].
  assert (R1' : for_each C new (updated C new m reg0, (h0 ++ [e1])%list) post =
                Returned (players, history)).
  { rewrite <- R1. symmetry.
    etransitivity; [apply f_equal2; [exact E1 | reflexivity]|].
    reflexivity. }
  assert (R2' : for_each C new (updated C new (swap_players m) reg0,
                                (h0 ++ [e2])%list) post =
                Returned (players', history')).
  { rewrite <- R2. symmetry.
    etransitivity; [apply f_equal2; [exact E2 | reflexivity]|].
    reflexivity. }
  eapply for_each_same_objects; [|exact R2'|exact R1'].
  now apply updated_swap.
Qed.

End ColumnFacts.

Lemma decisive_match_columns_witness :
  exists players history players' history',
    simulate EloCompetitor (EloCompetitor_new 1200 40)
      ([A_beats_B] ++ B_beats_C :: []) = Returned (players, history) /\
    simulate EloCompetitor (EloCompetitor_new 1200 40)
      ([A_beats_B] ++ swap_players B_beats_C :: []) =
      Returned (players', history') /\
    forall n, Dict.get n players' = Dict.get n players.
Proof.
  eexists _, _, _, _.
  split; [elo_eval; reflexivity|]. split; [elo_eval; reflexivity|].
  eapply (decisive_match_columns EloCompetitor (EloCompetitor_new 1200 40)
            [A_beats_B] B_beats_C []).
  - simpl. discriminate.
  - left. reflexivity.
  - elo_eval. reflexivity.
  - elo_eval. reflexivity.
Defined.

(** ** Who is in the registry *)

Lemma In_first_seen (n : string) (l : list string) :
  In n (first_seen l) <-> In n l.
Proof.
  induction l as [|x l IH]; cbn [first_seen In]; [tauto|].
  rewrite filter_In, IH, negb_true_iff, String.eqb_neq.
  destruct (string_dec x n) as [->|Hne]; [tauto|].
  split; [tauto|]. intros [H|H]; [tauto|]. right. split; auto.
Qed.

Lemma length_first_seen (l : list string) :
  List.length (first_seen l) <= List.length l.
Proof.
  induction l as [|x l IH]; cbn [first_seen List.length]; [lia|].
  apply le_n_S. etransitivity; [apply filter_length_le | exact IH].
Qed.

Lemma length_names_of (ms : list Match) :
  List.length (names_of ms) = 2 * List.length ms.
Proof.
  induction ms as [|m ms IH]; [reflexivity|].
  unfold names_of in *. cbn [flat_map app List.length]. lia.
Qed.

(** The registry a run returns holds exactly the players named in the match
    list, one object each: every name of the list is a key, every key is a
    name of the list, no key comes twice, and there are at most two players
    per match. *)
Theorem registry_holds_the_players
    {Obj Rating : Type} (C : CompetitorClass Obj Rating) (new : Obj)
    (ms : list Match) (players : Dict.t Obj)
    (history : list (Dict.t (value Rating))) :
  simulate C new ms = Returned (players, history) ->
  NoDup (Dict.keys players) /\
  (forall n, In n (Dict.keys players) <-> In n (names_of ms)) /\
  List.length players <= 2 * List.length ms.
Proof.
  intros Hrun. split; [|split].
  - exact (simulate_NoDup C new ms players history Hrun).
  - intros n. rewrite (simulate_keys C new ms players history Hrun).
    apply In_first_seen.
  - rewrite <- length_names_of.
    replace (List.length players) with (List.length (Dict.keys players))
      by apply length_map.
    rewrite (simulate_keys C new ms players history Hrun).
    apply length_first_seen.
Qed.

Lemma registry_holds_the_players_witness :
  exists players history,
    simulate EloCompetitor (EloCompetitor_new 1200 40) [A_beats_B; B_beats_C] =
      Returned (players, history) /\
    NoDup (Dict.keys players) /\
    (forall n, In n (Dict.keys players) <->
               In n (names_of [A_beats_B; B_beats_C])) /\
    List.length players <= 2 * List.length [A_beats_B; B_beats_C].
Proof.
  eexists _, _. split; [elo_eval; reflexivity|].
  eapply (registry_holds_the_players EloCompetitor (EloCompetitor_new 1200 40)
            [A_beats_B; B_beats_C]).
  elo_eval. reflexivity.
Defined.

(** ** The fields of a trace entry *)

(** The entry of a match between two different names always has its eight
    fields: whatever the two names are, a key ["<name>_before"] or
    ["<name>_after"] never falls on one of the four fixed keys nor on a key
    of the other player, so no field is overwritten. *)
Theorem trace_entry_eight_keys
    {Obj Rating : Type} (C : CompetitorClass Obj Rating) (new : Obj)
    (pre : list Match) (m : Match) (post : list Match) :
  player1 m <> player2 m ->
  exists players history e,
    simulate C new (pre ++ m :: post) = Returned (players, history) /\
    nth_error history (List.length pre) = Some e /\
    Dict.keys e =
      ["match"; "player1"; "player2"; "winner";
       before_key (player1 m); after_key (player1 m);
       before_key (player2 m); after_key (player2 m)].
Proof.
  intros Hne.
  destruct (simulate_split C new pre m post)
    as (reg0 & h0 & o1 & o2 & o1' & o2' & players & trace &
        Hpre & Hlen0 & G1 & G2 & G1' & G2' & Hstep & Hall & Hlen).
  exists players,
    (h0 ++ history_entry m (rating C o1) (rating C o1')
             (rating C o2) (rating C o2') :: trace)%list,
    (history_entry m (rating C o1) (rating C o1') (rating C o2) (rating C o2')).
  split; [exact Hall|]. split; [now apply nth_error_middle|].
  now apply entry_keys_distinct.
Qed.

Lemma trace_entry_eight_keys_witness :
  exists players history e,
    simulate EloCompetitor (EloCompetitor_new 1200 40)
      ([] ++ A_beats_B :: []) = Returned (players, history) /\
    nth_error history (List.length (@nil Match)) = Some e /\
    Dict.keys e =
      ["match"; "player1"; "player2"; "winner";
       before_key (player1 A_beats_B); after_key (player1 A_beats_B);
       before_key (player2 A_beats_B); after_key (player2 A_beats_B)].
Proof.
  apply (trace_entry_eight_keys EloCompetitor (EloCompetitor_new 1200 40)
           [] A_beats_B []).
  simpl. discriminate.
Defined.

(** ** The two reporters together *)

Section ReporterFacts.

Context {A B K : Type}.
Variable lt : K -> K -> bool.
Variable key1 : A -> K.
Variable key2 : B -> K.
Variable f : A -> B.
Hypothesis key_f : forall x, key2 (f x) = key1 x.

Lemma insert_reverse_map x l :
  insert_reverse key2 lt (f x) (map f l) = map f (insert_reverse key1 lt x l).
Proof.
  induction l as [|y l IH]; auto.
  cbn [map insert_reverse]. rewrite !key_f.
  destruct (lt (key1 x) (key1 y)); auto.
  cbn [map]. now rewrite IH.
Qed.

Lemma sort_reverse_map l :
  sort_reverse key2 lt (map f l) = map f (sort_reverse key1 lt l).
Proof.
  induction l as [|x l IH]; auto.
  cbn [map sort_reverse]. now rewrite IH, insert_reverse_map.
Qed.

End ReporterFacts.

(** [get_glicko2_standings_with_uncertainty] ranks as [get_final_standings]
    does: the names and ratings of its rows, read in order, are the final
    standings of the same registry, ties included. *)
Theorem uncertainty_rows_follow_standings
    {Obj Rating : Type} (rating_ rd_ volatility_ : Obj -> Rating)
    (lt : Rating -> Rating -> bool) (players : Dict.t Obj) :
  map (fun row => (row_name row, row_rating row))
    (fst (get_glicko2_standings_with_uncertainty rating_ rd_ volatility_ lt
            players)) =
  fst (get_final_standings rating_ lt players).
Proof.
  cbn. unfold standings_of.
  rewrite (sort_reverse_map lt (fun it => rating_ (snd it)) row_rating
             (fun it => {| row_name := fst it; row_rating := rating_ (snd it);
                           row_rd := rd_ (snd it);
                           row_volatility := volatility_ (snd it) |}))
    by reflexivity.
  rewrite (sort_reverse_map lt (fun it => rating_ (snd it)) snd
             (fun it => (fst it, rating_ (snd it)))) by reflexivity.
  now rewrite map_map.
Qed.

(** The rows of [get_glicko2_standings_with_uncertainty] are one row per
    registry entry, carrying the name, rating, deviation and volatility of
    that entry, in descending order of rating, rows tied at a rating in
    registry order.  ([<] is a strict weak order on the ratings.) *)
Theorem uncertainty_rows_sorted_stable
    {Obj Rating : Type} (rating_ rd_ volatility_ : Obj -> Rating)
    (lt : Rating -> Rating -> bool)
    (lt_irrefl : forall a, lt a a = false)
    (lt_trans : forall a b c, lt a b = true -> lt b c = true -> lt a c = true)
    (lt_negtrans :
       forall a b c, lt a b = false -> lt b c = false -> lt a c = false)
    (players : Dict.t Obj) :
  let row_of it :=
    {| row_name := fst it; row_rating := rating_ (snd it);
       row_rd := rd_ (snd it); row_volatility := volatility_ (snd it) |} in
  let rows :=
    fst (get_glicko2_standings_with_uncertainty rating_ rd_ volatility_ lt
           players) in
  Permutation rows (map row_of (Dict.items players)) /\
  descending row_rating lt rows /\
  forall r, filter (tied_with row_rating lt r) rows =
            filter (tied_with row_rating lt r) (map row_of (Dict.items players)).
Proof.
  intros row_of rows.
  assert (Hr : rows = sort_reverse row_rating lt (map row_of (Dict.items players)))
    by reflexivity.
  rewrite Hr. split; [|split].
  - apply sort_reverse_perm.
  - now apply sort_reverse_descending.
  - intros r. now apply sort_reverse_stable.
Qed.

Lemma Zltb_irrefl (a : Z) : Z.ltb a a = false.
Proof. apply Z.ltb_irrefl. Qed.

Lemma Zltb_trans (a b c : Z) :
  Z.ltb a b = true -> Z.ltb b c = true -> Z.ltb a c = true.
Proof. rewrite !Z.ltb_lt. lia. Qed.

Lemma Zltb_negtrans (a b c : Z) :
  Z.ltb a b = false -> Z.ltb b c = false -> Z.ltb a c = false.
Proof. rewrite !Z.ltb_ge. lia. Qed.

Lemma uncertainty_rows_sorted_stable_witness :
  let players : Dict.t (Z * Z * Z) :=
    [("A", (1200, 300, 6)%Z); ("B", (1300, 280, 6)%Z); ("C", (1200, 310, 5)%Z)] in
  let rating_ (o : Z * Z * Z) := fst (fst o) in
  let rd_ (o : Z * Z * Z) := snd (fst o) in
  let volatility_ (o : Z * Z * Z) := snd o in
  let row_of it :=
    {| row_name := fst it; row_rating := rating_ (snd it);
       row_rd := rd_ (snd it); row_volatility := volatility_ (snd it) |} in
  let rows :=
    fst (get_glicko2_standings_with_uncertainty rating_ rd_ volatility_ Z.ltb
           players) in
  Permutation rows (map row_of (Dict.items players)) /\
  descending row_rating Z.ltb rows /\
  forall r, filter (tied_with row_rating Z.ltb r) rows =
            filter (tied_with row_rating Z.ltb r)
              (map row_of (Dict.items players)).
Proof.
  exact (uncertainty_rows_sorted_stable
           (fun o : Z * Z * Z => fst (fst o)) (fun o => snd (fst o))
           (fun o => snd o) Z.ltb Zltb_irrefl Zltb_trans Zltb_negtrans
           [("A", (1200, 300, 6)%Z); ("B", (1300, 280, 6)%Z);
            ("C", (1200, 310, 5)%Z)]).
Defined.

(** ** The comparison table *)

Lemma next_rating_pairs {Obj Rating : Type} (rating_ : Obj -> Rating)
    (players : Dict.t Obj) (player : string) :
  next_rating (map (fun it => (fst it, rating_ (snd it))) players) player =
  option_map rating_ (Dict.get player players).
Proof.
  induction players as [|[n o] players IH]; auto.
  cbn [map next_rating Dict.get fst snd].
  rewrite (String.eqb_sym n player).
  destruct (String.eqb player n); auto.
Qed.

Lemma next_rating_In {Rating : Type} (l : list (string * Rating)) p r :
  NoDup (map fst l) -> In (p, r) l -> next_rating l p = Some r.
Proof.
  induction l as [|[n x] l IH]; cbn [map fst next_rating In]; [tauto|].
  intros Hnd [H|H].
  - injection H as -> ->. now rewrite String.eqb_refl.
  - inversion Hnd as [|? ? Hn Hl]; subst.
    destruct (String.eqb_spec n p) as [->|Hne]; auto.
    exfalso. apply Hn. now apply (in_map fst) in H.
Qed.

Lemma next_rating_None {Rating : Type} (l : list (string * Rating)) p :
  ~ In p (map fst l) -> next_rating l p = None.
Proof.
  induction l as [|[n x] l IH]; cbn [map fst next_rating In]; auto.
  intros Hn. destruct (String.eqb_spec n p) as [->|Hne]; tauto.
Qed.

Lemma next_rating_Some_In {Rating : Type} (l : list (string * Rating)) p r :
  next_rating l p = Some r -> In (p, r) l.
Proof.
  induction l as [|[n x] l IH]; cbn [next_rating In]; [discriminate|].
  destruct (String.eqb_spec n p) as [->|Hne]; auto.
  intros [= ->]. now left.
Qed.

Lemma next_rating_perm {Rating : Type} (l l' : list (string * Rating)) p :
  NoDup (map fst l) -> Permutation l' l -> next_rating l' p = next_rating l p.
Proof.
  intros Hnd Hp.
  assert (Hnd' : NoDup (map fst l')).
  { apply (Permutation_NoDup (Permutation_sym (Permutation_map fst Hp)) Hnd). }
  destruct (next_rating l p) as [r|] eqn:E.
  - apply next_rating_In; auto.
    apply (Permutation_in _ (Permutation_sym Hp)).
    now apply next_rating_Some_In.
  - destruct (next_rating l' p) as [r|] eqn:E'; auto.
    apply next_rating_Some_In in E'.
    apply (Permutation_in _ Hp) in E'.
    apply next_rating_In in E'; auto. congruence.
Qed.

Section TableFacts.

Context {Obj Rating : Type}.
Variable C : CompetitorClass Obj Rating.
Variable new : Obj.
Variable lt : Rating -> Rating -> bool.

Lemma standings_lookup (players : Dict.t Obj) player :
  NoDup (Dict.keys players) ->
  next_rating (fst (get_final_standings (rating C) lt players)) player =
  rating_of C players player.
Proof.
  intros Hnd. unfold rating_of. rewrite <- next_rating_pairs.
  apply next_rating_perm.
  - rewrite map_map. exact Hnd.
  - apply sort_reverse_perm.
Qed.

(** The rating the comparison table looks up for a name in a system's
    standings is the rating of that name's competitor in the registry the
    run returned, and nothing for a name the registry does not hold: the
    sort loses no player and mixes no ratings up. *)
Theorem table_lookup_is_final_rating ms players history player :
  simulate C new ms = Returned (players, history) ->
  next_rating (fst (get_final_standings (rating C) lt players)) player =
  rating_of C players player.
Proof.
  intros Hrun. apply standings_lookup.
  exact (simulate_NoDup C new ms players history Hrun).
Qed.

(** Every player of the match list has a rating in the standings of a run
    on that list, so its cell shows that rating, unless the rating is zero:
    a rating of zero counts as false on line 219 and the cell reads "N/A"
    as for a missing player. *)
Theorem table_cell_of_player (truthy : Rating -> bool)
    ms players history player :
  simulate C new ms = Returned (players, history) ->
  In player (names_of ms) ->
  exists r,
    rating_of C players player = Some r /\
    table_cell truthy
      (next_rating (fst (get_final_standings (rating C) lt players)) player) =
    if truthy r then Shown r else NotAvailable.
Proof.
  intros Hrun Hin.
  rewrite (standings_lookup players player
             (simulate_NoDup C new ms players history Hrun)).
  assert (Hk : In player (Dict.keys players)).
  { rewrite (simulate_keys C new ms players history Hrun).
    now apply In_first_seen. }
  apply mem_keys in Hk. unfold Dict.mem in Hk. unfold rating_of.
  destruct (Dict.get player players) as [o|]; [|discriminate].
  exists (rating C o). split; reflexivity.
Qed.

End TableFacts.

Lemma table_lookup_is_final_rating_witness :
  exists players history,
    simulate EloCompetitor (EloCompetitor_new 1200 40) [A_beats_B] =
      Returned (players, history) /\
    next_rating (fst (get_final_standings (rating EloCompetitor) Rltb players))
      "B" =
    rating_of EloCompetitor players "B".
Proof.
  eexists _, _. split; [elo_eval; reflexivity|].
  eapply (table_lookup_is_final_rating EloCompetitor
            (EloCompetitor_new 1200 40) Rltb [A_beats_B]).
  elo_eval. reflexivity.
Defined.

Lemma table_cell_of_player_witness :
  exists players history,
    simulate EloCompetitor (EloCompetitor_new 1200 40) [A_beats_B] =
      Returned (players, history) /\
    exists r,
      rating_of EloCompetitor players "B" = Some r /\
      table_cell (fun x => Rltb x 0 || Rltb 0 x)
        (next_rating
           (fst (get_final_standings (rating EloCompetitor) Rltb players)) "B") =
      if Rltb r 0 || Rltb 0 r then Shown r else NotAvailable.
Proof.
  eexists _, _. split; [elo_eval; reflexivity|].
  eapply (table_cell_of_player EloCompetitor (EloCompetitor_new 1200 40) Rltb
            (fun x => Rltb x 0 || Rltb 0 x) [A_beats_B]).
  - elo_eval. reflexivity.
  - simpl. auto.
Defined.

(** ** The ranking analysis *)

Lemma differences_from_spec base :
  forall i ranking p orig new,
    In (p, orig, new) (differences_from i base ranking) <->
    exists j,
      p = i + j + 1 /\ nth_error base j = Some orig /\
      nth_error ranking j = Some new /\ orig <> new.
Proof.
  induction base as [|b base IH]; intros i ranking p orig new.
  - cbn. split; [tauto|]. intros ([|j] & _ & H & _); discriminate.
  - destruct ranking as [|r ranking].
    + cbn. split; [tauto|]. intros ([|j] & _ & _ & H & _); discriminate.
    + cbn [differences_from].
      assert (Hrest :
                In (p, orig, new) (differences_from (S i) base ranking) <->
                exists j, p = i + S j + 1 /\ nth_error (b :: base) (S j) = Some orig /\
                          nth_error (r :: ranking) (S j) = Some new /\ orig <> new).
      { rewrite IH. cbn [nth_error].
        split; intros (j & Hp & H); exists j; split; auto; lia. }
      destruct (String.eqb_spec b r) as [->|Hne]; cbn [negb In].
      * rewrite Hrest. split.
        -- intros (j & H). now exists (S j).
        -- intros ([|j] & Hp & Hb & Hr & Hd); [|now exists j].
           cbn in Hb, Hr. congruence.
      * rewrite Hrest. split.
        -- intros [H|(j & H)]; [|now exists (S j)].
           injection H as <- <- <-. exists 0. cbn. repeat split; auto; lia.
        -- intros ([|j] & Hp & Hb & Hr & Hd); [|right; now exists j].
           left. cbn in Hb, Hr. injection Hb as <-. injection Hr as <-.
           subst p. now replace (i + 0 + 1) with (i + 1) by lia.
Qed.

(** The differences reported between two rankings are exactly the places,
    counted from 1, where both rankings have a name and the two names
    differ; each comes with the two names found there. *)
Theorem differences_report (base_ranking ranking : list string)
    (p : nat) (orig new : string) :
  In (p, orig, new) (differences base_ranking ranking) <->
  1 <= p /\ nth_error base_ranking (p - 1) = Some orig /\
  nth_error ranking (p - 1) = Some new /\ orig <> new.
Proof.
  unfold differences. rewrite differences_from_spec. split.
  - intros (j & -> & H). replace (0 + j + 1 - 1) with j by lia.
    split; [lia | exact H].
  - intros (Hp & H). exists (p - 1). split; [lia | exact H].
Qed.

Lemma differences_from_nil base :
  forall i ranking,
    List.length base = List.length ranking ->
    (differences_from i base ranking = [] <-> ranking = base).
Proof.
  induction base as [|b base IH]; intros i [|r ranking] Hlen;
    cbn in Hlen; try discriminate.
  - cbn. tauto.
  - cbn [differences_from].
    destruct (String.eqb_spec b r) as [->|Hne]; cbn [negb].
    + rewrite IH by lia. split; congruence.
    + split; [discriminate | congruence].
Qed.

(** Between two rankings of the same length, no difference is reported
    exactly when the rankings are equal: on the branch where the rankings
    differ, the list of differences is never empty. *)
Theorem differences_empty_iff (base_ranking ranking : list string) :
  List.length base_ranking = List.length ranking ->
  (differences base_ranking ranking = [] <-> ranking = base_ranking).
Proof.
  apply differences_from_nil.
Qed.

Lemma differences_empty_iff_witness :
  differences ["A"; "B"; "C"] ["A"; "C"; "B"] = [] <->
  ["A"; "C"; "B"] = ["A"; "B"; "C"].
Proof.
  apply (differences_empty_iff ["A"; "B"; "C"] ["A"; "C"; "B"]).
  reflexivity.
Defined.

(** Two systems run on one match list rank the same players: the ranking of
    one is a rearrangement of the ranking of the other, whatever the two
    competitor classes, so the two have the same length, the pairing of
    positions in the analysis leaves no player out, and rankings that differ
    give at least one reported difference. *)
Theorem rankings_have_same_players
    {Obj1 Rating1 Obj2 Rating2 : Type}
    (C1 : CompetitorClass Obj1 Rating1) (new1 : Obj1)
    (lt1 : Rating1 -> Rating1 -> bool)
    (C2 : CompetitorClass Obj2 Rating2) (new2 : Obj2)
    (lt2 : Rating2 -> Rating2 -> bool)
    (ms : list Match) players1 history1 players2 history2 :
  simulate C1 new1 ms = Returned (players1, history1) ->
  simulate C2 new2 ms = Returned (players2, history2) ->
  let base_ranking :=
    ranking_of (fst (get_final_standings (rating C1) lt1 players1)) in
  let ranking :=
    ranking_of (fst (get_final_standings (rating C2) lt2 players2)) in
  Permutation base_ranking ranking /\
  List.length base_ranking = List.length ranking /\
  (ranking <> base_ranking -> differences base_ranking ranking <> []).
Proof.
  intros R1 R2 base_ranking ranking.
  assert (P1 : Permutation base_ranking (first_seen (names_of ms))).
  { unfold base_ranking, ranking_of. cbn.
    rewrite (Permutation_map fst (sort_reverse_perm snd lt1 _)).
    unfold standings_of, Dict.items. rewrite map_map. cbn [fst].
    now rewrite <- (simulate_keys C1 new1 ms players1 history1 R1). }
  assert (P2 : Permutation ranking (first_seen (names_of ms))).
  { unfold ranking, ranking_of. cbn.
    rewrite (Permutation_map fst (sort_reverse_perm snd lt2 _)).
    unfold standings_of, Dict.items. rewrite map_map. cbn [fst].
    now rewrite <- (simulate_keys C2 new2 ms players2 history2 R2). }
  assert (P : Permutation base_ranking ranking)
    by (rewrite P1; now symmetry).
  split; [exact P|]. split; [exact (Permutation_length P)|].
  intros Hne Hd.
  apply differences_from_nil in Hd; [tauto | exact (Permutation_length P)].
Qed.

Lemma rankings_have_same_players_witness :
  exists players1 history1 players2 history2,
    simulate EloCompetitor (EloCompetitor_new 1200 20) [A_beats_B; B_beats_C] =
      Returned (players1, history1) /\
    simulate EloCompetitor (EloCompetitor_new 1200 60) [A_beats_B; B_beats_C] =
      Returned (players2, history2) /\
    let base_ranking :=
      ranking_of (fst (get_final_standings (rating EloCompetitor) Rltb players1)) in
    let ranking :=
      ranking_of (fst (get_final_standings (rating EloCompetitor) Rltb players2)) in
    Permutation base_ranking ranking /\
    List.length base_ranking = List.length ranking /\
    (ranking <> base_ranking -> differences base_ranking ranking <> []).
Proof.
  eexists _, _, _, _.
  split; [elo_eval; reflexivity|]. split; [elo_eval; reflexivity|].
  eapply (rankings_have_same_players
            EloCompetitor (EloCompetitor_new 1200 20) Rltb
            EloCompetitor (EloCompetitor_new 1200 60) Rltb
            [A_beats_B; B_beats_C]).
  - elo_eval. reflexivity.
  - elo_eval. reflexivity.
Defined.

(** ** The registry over a longer run *)

(** No player ever leaves the registry or changes place in it: after more
    matches the registry has the keys it had, in the same order, followed by
    the players met since. *)
Theorem registry_grows_at_end
    {Obj Rating : Type} (C : CompetitorClass Obj Rating) (new : Obj)
    (pre post : list Match) reg0 h0 players history :
  simulate C new pre = Returned (reg0, h0) ->
  simulate C new (pre ++ post) = Returned (players, history) ->
  exists added,
    Dict.keys players = (Dict.keys reg0 ++ added)%list /\
    forall n, In n added <-> In n (names_of post) /\ ~ In n (Dict.keys reg0).
Proof.
  intros Hpre Hall.
  rewrite (simulate_continue C new pre post reg0 h0 Hpre) in Hall.
  apply for_each_keys in Hall. rewrite fold_add_name in Hall.
  eexists. split; [exact Hall|].
  intros n. rewrite filter_In, In_first_seen, negb_true_iff.
  rewrite <- mem_existsb, mem_false_keys. tauto.
Qed.

Lemma registry_grows_at_end_witness :
  exists reg0 h0 players history,
    simulate EloCompetitor (EloCompetitor_new 1200 40) [A_beats_B] =
      Returned (reg0, h0) /\
    simulate EloCompetitor (EloCompetitor_new 1200 40)
      ([A_beats_B] ++ [B_beats_C]) = Returned (players, history) /\
    exists added,
      Dict.keys players = (Dict.keys reg0 ++ added)%list /\
      forall n, In n added <->
                In n (names_of [B_beats_C]) /\ ~ In n (Dict.keys reg0).
Proof.
  eexists _, _, _, _.
  split; [elo_eval; reflexivity|]. split; [elo_eval; reflexivity|].
  eapply (registry_grows_at_end EloCompetitor (EloCompetitor_new 1200 40)
            [A_beats_B] [B_beats_C]).
  - elo_eval. reflexivity.
  - elo_eval. reflexivity.
Defined.
